(** * LuminaJournal: audio container encoder, base64 payload decoder and
      the orchestration glue around them.

    A shallow embedding of [utils/audioUtils.ts], [services/geminiService.ts]
    and the selection / import handlers of [App.tsx].

    Conventions of the embedding.
    - A JavaScript string is the list of its UTF-16 code units ([jsstring]);
      [length], [substring] and [charCodeAt] count code units, as in the
      language.
    - A finite JavaScript number is an exact rational ([Q]).  Double
      arithmetic agrees with the exact one as long as every intermediate
      value is a dyadic rational below 2^53 in magnitude, which covers
      every realistic audio parameter; NaN and the infinities are left out.
    - A byte of an [ArrayBuffer] or [Uint8Array] is a [Z] in [0, 256).
    - Code that can throw returns a [result]. *)

From Stdlib Require Import ZArith QArith Lia.
From stdpp Require Import base decidable option list strings.
Import ListNotations.

Local Open Scope Z_scope.

(** ** JavaScript values shared by all modules *)

Abbreviation jsstring := (list Z).

(** Code units of an ASCII literal. *)
Fixpoint js (s : string) : jsstring :=
  match s with
  | EmptyString => []
  | String a rest => Z.of_N (Ascii.N_of_ascii a) :: js rest
  end.

Inductive exn :=
  | RangeError
  | TypeError
  | SyntaxError
  | InvalidCharacterError
  | Error (message : jsstring).

Inductive result (A : Type) :=
  | Ok (a : A)
  | Throw (e : exn).
Arguments Ok {A} a.
Arguments Throw {A} e.

Definition bind {A B} (r : result A) (k : A → result B) : result B :=
  match r with
  | Ok a => k a
  | Throw e => Throw e
  end.

Notation "x <-- r ;; k" := (bind r (λ x, k))
  (at level 100, r at next level, right associativity,
   format "'[v' x  <--  r  ;;  '/' k ']'").

Definition is_ok {A} (r : result A) : Prop :=
  match r with Ok _ => True | Throw _ => False end.

(** [s.substring(0, n)] for a non-negative integer [n]. *)
Definition substring0 (n : Z) (s : jsstring) : jsstring := take (Z.to_nat n) s.

(** ** Number conversions of the language (ECMA-262, 7.1) *)

(** [truncate]: the integral part, rounding towards zero. *)
Definition truncate (q : Q) : Z := Z.quot (Qnum q) (Z.pos (Qden q)).

Definition ToUint8 (q : Q) : Z := truncate q mod 2 ^ 8.
Definition ToUint16 (q : Q) : Z := truncate q mod 2 ^ 16.
Definition ToUint32 (q : Q) : Z := truncate q mod 2 ^ 32.

(** ** utils/audioUtils.ts *)

Module AudioUtils.

(** The [k]-th byte (least significant first) of an unsigned integer. *)
Definition byte_of (k : Z) (x : Z) : Z := Z.land (Z.shiftr x (8 * k)) 255.

(** [new ArrayBuffer(n)]: [n] zero bytes.  A [DataView] and a [Uint8Array]
    built on the buffer alias it, so the buffer itself is threaded. *)
Definition ArrayBuffer (n : nat) : list Z := replicate n 0.

(** [DataView.prototype.setUint8 / setUint16 / setUint32]: a write that does
    not fit in the buffer throws a [RangeError]. *)
Definition setUint8 (view : list Z) (byteOffset : nat) (value : Q)
  : result (list Z) :=
  if decide (byteOffset + 1 ≤ length view)%nat
  then Ok (<[byteOffset := ToUint8 value]> view)
  else Throw RangeError.

Definition setUint16 (view : list Z) (byteOffset : nat) (value : Q)
    (littleEndian : bool) : result (list Z) :=
  if decide (byteOffset + 2 ≤ length view)%nat
  then
    let v := ToUint16 value in
    let '(b0, b1) :=
      if littleEndian then (byte_of 0 v, byte_of 1 v)
      else (byte_of 1 v, byte_of 0 v) in
    Ok (<[byteOffset + 1 := b1]> (<[byteOffset := b0]> view))%nat
  else Throw RangeError.

Definition setUint32 (view : list Z) (byteOffset : nat) (value : Q)
    (littleEndian : bool) : result (list Z) :=
  if decide (byteOffset + 4 ≤ length view)%nat
  then
    let v := ToUint32 value in
    let '(b0, b1, b2, b3) :=
      if littleEndian
      then (byte_of 0 v, byte_of 1 v, byte_of 2 v, byte_of 3 v)
      else (byte_of 3 v, byte_of 2 v, byte_of 1 v, byte_of 0 v) in
    Ok (<[byteOffset + 3 := b3]> (<[byteOffset + 2 := b2]>
         (<[byteOffset + 1 := b1]> (<[byteOffset := b0]> view))))%nat
  else Throw RangeError.

(** [writeString]: the loop [for (i = 0; i < string.length; i++)
    view.setUint8(offset + i, string.charCodeAt(i))], unrolled from index [i]
    over the code units still to be written. *)
Fixpoint writeString_from (i : nat) (view : list Z) (offset : nat)
    (rest : jsstring) : result (list Z) :=
  match rest with
  | [] => Ok view
  | c :: rest' =>
      view' <-- setUint8 view (offset + i) (inject_Z c) ;;
      writeString_from (S i) view' offset rest'
  end.

Definition writeString (view : list Z) (offset : nat) (string : jsstring)
  : result (list Z) :=
  writeString_from 0 view offset string.

(** The sum and the two products are taken in exact arithmetic; the doubles
    of the source give the same values as long as the parameters and each
    intermediate product are integers of magnitude below 2^53. *)
Definition createWavHeader (dataLength sampleRate numChannels bitsPerSample : Q)
  : result (list Z) :=
  let header := ArrayBuffer 44 in
  let view := header in
  (* RIFF identifier *)
  view <-- writeString view 0 (js "RIFF") ;;
  (* RIFF chunk length *)
  view <-- setUint32 view 4 (36 + dataLength)%Q true ;;
  (* WAVE identifier *)
  view <-- writeString view 8 (js "WAVE") ;;
  (* fmt chunk identifier *)
  view <-- writeString view 12 (js "fmt ") ;;
  (* fmt chunk length *)
  view <-- setUint32 view 16 16%Q true ;;
  (* Sample format (1 is PCM) *)
  view <-- setUint16 view 20 1%Q true ;;
  (* Channel count *)
  view <-- setUint16 view 22 numChannels true ;;
  (* Sample rate *)
  view <-- setUint32 view 24 sampleRate true ;;
  (* Byte rate (SampleRate * BlockAlign) *)
  view <-- setUint32 view 28
             (sampleRate * numChannels * (bitsPerSample / 8))%Q true ;;
  (* Block align (ChannelCount * BitsPerSample / 8) *)
  view <-- setUint16 view 32 (numChannels * (bitsPerSample / 8))%Q true ;;
  (* Bits per sample *)
  view <-- setUint16 view 34 bitsPerSample true ;;
  (* data chunk identifier *)
  view <-- writeString view 36 (js "data") ;;
  (* data chunk length *)
  view <-- setUint32 view 40 dataLength true ;;
  Ok view.

(** *** [atob]

    [atob] is a platform function.  The HTML standard defines it as the
    forgiving-base64 decode of the Infra standard, throwing an
    [InvalidCharacterError] where that algorithm returns failure.  The
    steps below are the steps of that algorithm, in its order. *)

Definition is_ascii_whitespace (c : Z) : bool :=
  (c =? 9) || (c =? 10) || (c =? 12) || (c =? 13) || (c =? 32).

(** The value of a code unit in the base64 alphabet (RFC 4648, table 1). *)
Definition b64_index (c : Z) : option Z :=
  if (65 <=? c) && (c <=? 90) then Some (c - 65)
  else if (97 <=? c) && (c <=? 122) then Some (c - 71)
  else if (48 <=? c) && (c <=? 57) then Some (c + 4)
  else if c =? 43 then Some 62
  else if c =? 47 then Some 63
  else None.

Definition ends_with (suffix data : jsstring) : bool :=
  bool_decide (suffix `suffix_of` data).

(** Step 2: a length that is a multiple of four loses one or two trailing
    [=] signs. *)
Definition remove_padding (data : jsstring) : jsstring :=
  if decide (length data mod 4 = 0)%nat then
    if ends_with [61; 61] data then take (length data - 2) data
    else if ends_with [61] data then take (length data - 1) data
    else data
  else data.

(** Steps 5 to 8.  The bit buffer is its value [buffer] together with the
    number [nbits] of bits it holds; appending six bits multiplies by 64. *)
Fixpoint decode_loop (data : list Z) (buffer : Z) (nbits : nat)
    (output : list Z) : list Z :=
  match data with
  | [] =>
      if decide (nbits = 12)%nat then output ++ [buffer / 16]
      else if decide (nbits = 18)%nat
      then output ++ [(buffer / 4) / 256; (buffer / 4) mod 256]
      else output
  | n :: rest =>
      let buffer := buffer * 64 + n in
      let nbits := (nbits + 6)%nat in
      if decide (nbits = 24)%nat
      then decode_loop rest 0 0
             (output ++ [buffer / 65536; (buffer / 256) mod 256; buffer mod 256])
      else decode_loop rest buffer nbits output
  end.

Definition atob (data : jsstring) : result jsstring :=
  (* 1. remove all ASCII whitespace *)
  let data := filter (λ c, is_ascii_whitespace c = false) data in
  (* 2. remove the padding of a length that is a multiple of four *)
  let data := remove_padding data in
  (* 3. a remainder of one is a failure *)
  if decide (length data mod 4 = 1)%nat then Throw InvalidCharacterError
  else
    (* 4. any code unit outside the alphabet is a failure *)
    match mapM b64_index data with
    | None => Throw InvalidCharacterError
    | Some sextets => Ok (decode_loop sextets 0 0 [])
    end.

(** [String.prototype.charCodeAt]: [None] stands for the NaN of an index
    out of range. *)
Definition charCodeAt (s : jsstring) (i : nat) : option Z := s !! i.

(** [bytes[i] = v] on a [Uint8Array]: the value is converted with ToUint8
    (NaN becomes 0) and a write out of range is ignored. *)
Definition Uint8Array_set (bytes : list Z) (i : nat) (v : option Z) : list Z :=
  <[i := from_option (λ c, ToUint8 (inject_Z c)) 0 v]> bytes.

Definition base64ToUint8Array (base64 : jsstring) : result (list Z) :=
  binaryString <-- atob base64 ;;
  let len := length binaryString in
  let bytes := replicate len 0 in
  Ok (foldl (λ bytes i, Uint8Array_set bytes i (charCodeAt binaryString i))
            bytes (seq 0 len)).

(** A [Blob] keeps the parts it was built from; its content is their
    concatenation. *)
Record Blob := { blobParts : list (list Z); blobType : jsstring }.

Definition blob_bytes (b : Blob) : list Z := concat (blobParts b).

(** [sampleRate] is an optional parameter with default 24000. *)
Definition pcmToWavBlob (base64Data : jsstring) (sampleRate : option Q)
  : result Blob :=
  let sampleRate := default 24000%Q sampleRate in
  pcmData <-- base64ToUint8Array base64Data ;;
  header <-- createWavHeader (inject_Z (Z.of_nat (length pcmData)))
               sampleRate 1%Q 16%Q ;; (* 1 channel, 16-bit *)
  Ok {| blobParts := [header; pcmData]; blobType := js "audio/wav" |}.

End AudioUtils.

(** ** JSON values, as [JSON.parse] yields them and as the untyped import
    code inspects them *)

#[warnings="-register-all"] Inductive jsval :=
  | JUndefined
  | JNull
  | JBool (b : bool)
  | JNum (q : Q)
  | JStr (s : jsstring)
  | JArr (items : list jsval)
  | JObj (fields : list (jsstring * jsval)).

(** ToBoolean. *)
Definition truthy (v : jsval) : bool :=
  match v with
  | JUndefined | JNull => false
  | JBool b => b
  | JNum q => negb (Qeq_bool q 0)
  | JStr s => negb (bool_decide (s = []))
  | JArr _ | JObj _ => true
  end.

(** [a || b]. *)
Definition js_or (a b : jsval) : jsval := if truthy a then a else b.

(** An object literal with a repeated key keeps the last value. *)
Fixpoint obj_lookup (fields : list (jsstring * jsval)) (key : jsstring)
  : option jsval :=
  match fields with
  | [] => None
  | (k, v) :: rest =>
      match obj_lookup rest key with
      | Some v' => Some v'
      | None => if decide (k = key) then Some v else None
      end
  end.

(** [v.key] for the keys the import code reads ([entries], [date],
    [creationDate], [text], [content], [photos], [mood], [tags]): none of
    them is a built-in property of a primitive or of an array. *)
Definition get (v : jsval) (key : jsstring) : result jsval :=
  match v with
  | JUndefined | JNull => Throw TypeError
  | JObj fields => Ok (default JUndefined (obj_lookup fields key))
  | _ => Ok JUndefined
  end.

(** ** App.tsx *)

Module App.

Record JournalEntry := {
  id : jsstring;
  date : jsval;
  content : jsval;
  images : list jsstring;
  mood : jsval;
  tags : jsval
}.

Definition includes (l : list jsstring) (x : jsstring) : bool :=
  bool_decide (x ∈ l).

(** The value handed to [setSelectedIds], from the current [selectedIds]. *)
Definition toggleSelection (id : jsstring) (selectedIds : list jsstring)
  : list jsstring :=
  if includes selectedIds id
  then filter (λ sid, sid ≠ id) selectedIds
  else selectedIds ++ [id].

(** The callback of [raw.photos.map]: a string is kept, anything else
    becomes the empty string. *)
Definition photo_to_image (p : jsval) : jsstring :=
  match p with
  | JStr s => s
  | _ => []
  end.

(** [raw.photos ? raw.photos.map(...) : []]: a truthy value without a
    [map] method makes the call throw. *)
Definition import_images (photos : jsval) : result (list jsstring) :=
  if truthy photos then
    match photos with
    | JArr items => Ok (map photo_to_image items)
    | _ => Throw TypeError
    end
  else Ok [].

Section ImportHandler.

(** [crypto.randomUUID()] and [new Date().toISOString()] at the [i]-th
    imported entry, and [JSON.parse]. *)
Variable randomUUID : nat → jsstring.
Variable nowISOString : nat → jsstring.
Variable JSON_parse : jsstring → result jsval.

(** The callback of [importedEntries.map], at index [i]. *)
Definition format_entry (i : nat) (raw : jsval) : result JournalEntry :=
  raw_date <-- get raw (js "date") ;;
  raw_creationDate <-- get raw (js "creationDate") ;;
  raw_text <-- get raw (js "text") ;;
  raw_content <-- get raw (js "content") ;;
  raw_photos <-- get raw (js "photos") ;;
  imgs <-- import_images raw_photos ;; (* Simple handler *)
  raw_mood <-- get raw (js "mood") ;;
  raw_tags <-- get raw (js "tags") ;;
  Ok {| id := randomUUID i;
        date := js_or (js_or raw_date raw_creationDate) (JStr (nowISOString i));
        content := js_or (js_or raw_text raw_content) (JStr []);
        images := imgs;
        mood := raw_mood;
        tags := js_or raw_tags (JArr []) |}.

Fixpoint format_entries (i : nat) (raws : list jsval)
  : result (list JournalEntry) :=
  match raws with
  | [] => Ok []
  | raw :: rest =>
      e <-- format_entry i raw ;;
      es <-- format_entries (S i) rest ;;
      Ok (e :: es)
  end.

(** [Array.isArray(json) ? json : (json.entries || [])], then [.map]. *)
Definition formatted (json : jsval) : result (list JournalEntry) :=
  importedEntries <--
    match json with
    | JArr _ => Ok json
    | _ => entries <-- get json (js "entries") ;; Ok (js_or entries (JArr []))
    end ;;
  match importedEntries with
  | JArr raws => format_entries 0 raws
  | _ => Throw TypeError
  end.

Inductive alert :=
  | SuccessfullyImported (n : nat)
  | FailedToParse.

(** The [reader.onload] handler of [handleImport]: the new [entries] state
    and the alert shown. *)
Definition handleImport (fileText : jsstring) (prev : list JournalEntry)
  : list JournalEntry * alert :=
  match json <-- JSON_parse fileText ;; formatted json with
  | Ok fs => (prev ++ fs, SuccessfullyImported (length fs))
  | Throw _ => (prev, FailedToParse)
  end.

End ImportHandler.

End App.

(** ** services/geminiService.ts *)

Module GeminiService.

(** *** What goes to and comes from the provider's SDK *)

Inductive Part :=
  | InlineData (mimeType data : jsstring)
  | TextPart (text : jsstring).

Inductive Contents :=
  | ContentsText (text : jsstring)
  | ContentsParts (parts : list Part).

#[warnings="-register-all"] Inductive Schema :=
  | SString (description : option jsstring)
  | SArray (items : Schema)
  | SObject (properties : list (jsstring * Schema)) (required : list jsstring).

Record GenerateContentParameters := {
  gc_model : jsstring;
  gc_contents : Contents;
  gc_responseMimeType : jsstring;
  gc_responseSchema : Schema
}.

(** [response.text] is a string or [undefined]. *)
Record GenerateContentResponse := { text : option jsstring }.

Record Image := { imageBytes : jsstring; mimeType : jsstring }.

Record GenerateVideosParameters := {
  gv_model : jsstring;
  gv_prompt : jsstring;
  gv_image : option Image;
  gv_numberOfVideos : Z;
  gv_resolution : jsstring;
  gv_aspectRatio : jsstring
}.

(** An operation handle: its [done] flag and
    [response?.generatedVideos?.[0]?.video?.uri]. *)
Record Operation := { done : bool; videoUri : option jsstring }.

(** Every interaction with the outside, in the order it happens. *)
Inductive call :=
  | CallGenerateContent (p : GenerateContentParameters)
  | CallGenerateVideos (p : GenerateVideosParameters)
  | CallSetTimeout (ms : Z)
  | CallGetVideosOperation (op : Operation)
  | CallFetch (url : jsstring)
  | CallConsoleError (e : exn).

(** The outcome of an asynchronous function: it settles (resolves or
    rejects), or is still waiting for the job when the polls run out. *)
Inductive outcome (A : Type) :=
  | Settled (r : result A)
  | Pending.
Arguments Settled {A} r.
Arguments Pending {A}.

(** An asynchronous computation extends the log of calls made so far. *)
Definition async (A : Type) : Type := list call → outcome A * list call.

Definition ret {A} (a : A) : async A := λ log, (Settled (Ok a), log).
Definition throw {A} (e : exn) : async A := λ log, (Settled (Throw e), log).
Definition lift {A} (r : result A) : async A := λ log, (Settled r, log).
Definition emit (c : call) : async () := λ log, (Settled (Ok ()), log ++ [c]).

Definition abind {A B} (m : async A) (k : A → async B) : async B :=
  λ log,
    match m log with
    | (Settled (Ok a), log') => k a log'
    | (Settled (Throw e), log') => (Settled (Throw e), log')
    | (Pending, log') => (Pending, log')
    end.

Notation "x <~ m ;; k" := (abind m (λ x, k))
  (at level 100, m at next level, right associativity,
   format "'[v' x  <~  m  ;;  '/' k ']'").

(** [try { m } catch (error) { h error }]. *)
Definition try_catch {A} (m : async A) (h : exn → async A) : async A :=
  λ log,
    match m log with
    | (Settled (Throw e), log') => h e log'
    | r => r
    end.

(** Runs from an empty log. *)
Definition run {A} (m : async A) : outcome A * list call := m [].

(** ToBoolean of an optional string: [undefined] and [''] are falsy. *)
Definition nonempty (s : option jsstring) : option jsstring :=
  match s with
  | Some (c :: rest) => Some (c :: rest)
  | _ => None
  end.

(** [s.split(',')]: the pieces of [s] between the commas. *)
Fixpoint split_comma (s : jsstring) : list jsstring :=
  match s with
  | [] => [[]]
  | c :: rest =>
      if c =? 44 then [] :: split_comma rest
      else match split_comma rest with
           | piece :: pieces => (c :: piece) :: pieces
           | [] => [[c]]
           end
  end.

(** [prompt.length > 400 ? prompt.substring(0, 400) : prompt]. *)
Definition cleanPrompt (prompt : jsstring) : jsstring :=
  if decide (400 < length prompt)%nat then substring0 400 prompt else prompt.

Section Service.

(** The provider, the network and [JSON.parse]: what each call answers,
    given the calls made before it.  An awaited rejection is a [Throw]. *)
Variable generateContent :
  list call → GenerateContentParameters → result GenerateContentResponse.
Variable generateVideos :
  list call → GenerateVideosParameters → result Operation.
Variable getVideosOperation : list call → Operation → result Operation.
Variable fetchObjectURL : list call → jsstring → result jsstring.
Variable JSON_parse : jsstring → result jsval.

(** [process.env.API_KEY], as it prints in a template literal. *)
Variable API_KEY : jsstring.

(** The fixed instruction text around the journal entries in the two
    analysis prompts. *)
Variables videoPromptHead videoPromptTail : jsstring.
Variables profilePromptHead profilePromptTail : jsstring.

Definition ai_generateContent (p : GenerateContentParameters)
  : async GenerateContentResponse :=
  λ log, (Settled (generateContent log p), log ++ [CallGenerateContent p]).

Definition ai_generateVideos (p : GenerateVideosParameters) : async Operation :=
  λ log, (Settled (generateVideos log p), log ++ [CallGenerateVideos p]).

Definition ai_getVideosOperation (op : Operation) : async Operation :=
  λ log, (Settled (getVideosOperation log op), log ++ [CallGetVideosOperation op]).

Definition fetch_blob_url (url : jsstring) : async jsstring :=
  λ log, (Settled (fetchObjectURL log url), log ++ [CallFetch url]).

Definition analyzeJournalForVideo (entriesText : jsstring) : async jsval :=
  response <~ ai_generateContent
    {| gc_model := js "gemini-2.5-flash";
       gc_contents := ContentsText
         (videoPromptHead ++ substring0 5000 entriesText ++ videoPromptTail);
       gc_responseMimeType := js "application/json";
       gc_responseSchema :=
         SObject
           [(js "prompt", SString (Some (js "Visual prompt for Veo.")));
            (js "mood", SString (Some (js "Mood word.")));
            (js "script", SString (Some (js "Short voiceover script.")))]
           [js "prompt"; js "mood"; js "script"] |} ;;
  match nonempty (text response) with
  | None => throw (Error (js "No response from Gemini"))
  | Some text => lift (JSON_parse text)
  end.

Definition analyzeLifeProfile (entriesText : jsstring) : async jsval :=
  response <~ ai_generateContent
    {| gc_model := js "gemini-2.5-flash";
       gc_contents := ContentsText
         (profilePromptHead ++ substring0 10000 entriesText
            ++ profilePromptTail);
       gc_responseMimeType := js "application/json";
       gc_responseSchema :=
         SObject
           [(js "archetype", SString None);
            (js "traits", SArray (SString None));
            (js "musicalStyle", SString None);
            (js "lyrics", SString None);
            (js "visualPrompt", SString None)]
           [js "archetype"; js "traits"; js "musicalStyle"; js "lyrics";
            js "visualPrompt"] |} ;;
  match nonempty (text response) with
  | None => throw (Error (js "No response from Gemini"))
  | Some text => lift (JSON_parse text)
  end.

(** The polling loop [while (!operation.done)], run for at most [fuel]
    rounds. *)
Fixpoint poll (fuel : nat) (operation : Operation) : async Operation :=
  if done operation then ret operation
  else
    match fuel with
    | O => λ log, (Pending, log)
    | S fuel' =>
        _ <~ emit (CallSetTimeout 5000) ;;
        operation <~ ai_getVideosOperation operation ;;
        poll fuel' operation
    end.

Definition generateCinematicMemory (fuel : nat) (prompt : jsstring)
    (base64Image : option jsstring) : async jsstring :=
  (* Ensure the prompt isn't too long for Veo *)
  let cleanPrompt := cleanPrompt prompt in
  try_catch
    (operation <~
       match nonempty base64Image with
       | Some base64Image =>
           (* Image-to-Video *)
           let cleanBase64 :=
             default base64Image (nonempty (split_comma base64Image !! 1%nat)) in
           ai_generateVideos
             {| gv_model := js "veo-3.1-fast-generate-preview";
                gv_prompt := cleanPrompt;
                gv_image := Some {| imageBytes := cleanBase64;
                                    mimeType := js "image/jpeg" |};
                gv_numberOfVideos := 1;
                gv_resolution := js "720p";
                gv_aspectRatio := js "16:9" |}
       | None =>
           (* Text-to-Video *)
           ai_generateVideos
             {| gv_model := js "veo-3.1-fast-generate-preview";
                gv_prompt := cleanPrompt;
                gv_image := None;
                gv_numberOfVideos := 1;
                gv_resolution := js "720p";
                gv_aspectRatio := js "16:9" |}
       end ;;
     (* Polling loop *)
     operation <~ poll fuel operation ;;
     match nonempty (videoUri operation) with
     | None => throw (Error (js "Failed to generate video URI"))
     | Some videoUri =>
         (* Fetch the actual blob to play locally *)
         let downloadUrl := videoUri ++ js "&key=" ++ API_KEY in
         fetch_blob_url downloadUrl
     end)
    (λ error, _ <~ emit (CallConsoleError error) ;; throw error).

Definition suggestTags (content : jsstring) (imageBase64 : option jsstring)
  : async jsval :=
  let parts : list Part := [] in
  let parts :=
    match nonempty imageBase64 with
    | Some imageBase64 =>
        let cleanBase64 :=
          if bool_decide (44 ∈ imageBase64)
          then default [] (split_comma imageBase64 !! 1%nat)
          else imageBase64 in
        parts ++ [InlineData (js "image/jpeg") cleanBase64]
    | None => parts
    end in
  let prompt := js "Generate 3-5 relevant short tags for this journal entry." in
  let prompt :=
    match content with
    | [] => prompt
    | _ => prompt ++ js " Text: " ++ [34] ++ content ++ [34]
    end in
  let prompt :=
    match nonempty imageBase64 with
    | Some _ => prompt ++ js " Analyze the image visual content for tags."
    | None => prompt
    end in
  let parts := parts ++ [TextPart prompt] in
  response <~ ai_generateContent
    {| gc_model := js "gemini-2.5-flash";
       gc_contents := ContentsParts parts;
       gc_responseMimeType := js "application/json";
       gc_responseSchema := SArray (SString None) |} ;;
  match nonempty (text response) with
  | Some text => lift (JSON_parse text)
  | None => ret (JArr [])
  end.

End Service.

End GeminiService.

(** ** Reading a header back, and the reference encoder

    These are the yardsticks of the statements, not code of the
    application. *)

Import AudioUtils.

(** The unsigned integer stored little-endian in a run of bytes. *)
Definition le_decode (bs : list Z) : Z := foldr (λ b acc, b + 256 * acc) 0 bs.

(** The [size]-byte little-endian field at [offset]. *)
Definition field (h : list Z) (offset size : nat) : Z :=
  le_decode (take size (drop offset h)).

(** The four bytes of a chunk identifier at [offset]. *)
Definition tag (h : list Z) (offset : nat) : jsstring := take 4 (drop offset h).

Definition is_byte (b : Z) : Prop := 0 ≤ b < 256.

Definition is_sextet (n : Z) : Prop := 0 ≤ n < 64.

(** The character class [[A-Za-z0-9+/=]]. *)
Definition base64_char_class (c : Z) : bool :=
  (65 <=? c) && (c <=? 90) || (97 <=? c) && (c <=? 122)
  || (48 <=? c) && (c <=? 57) || (c =? 43) || (c =? 47) || (c =? 61).

(** What is left of an input once the decoder has dropped the ASCII
    whitespace and the padding. *)
Definition significant (s : jsstring) : jsstring :=
  remove_padding (filter (λ c, is_ascii_whitespace c = false) s).

(** The character of a six-bit value (RFC 4648, table 1). *)
Definition b64_char (n : Z) : Z :=
  if n <? 26 then n + 65
  else if n <? 52 then n + 71
  else if n <? 62 then n - 4
  else if n =? 62 then 43
  else 47.

(** The reference encoder of the round-trip property, written from
    RFC 4648 section 4 (the application has no encoder): 24-bit groups
    become four characters, a final group of 8 or 16 bits is padded with
    zero bits and completed with [==] or [=]. *)
Fixpoint rfc4648_encode (bs : list Z) : jsstring :=
  match bs with
  | [] => []
  | [a] => [b64_char (a / 4); b64_char (a mod 4 * 16); 61; 61]
  | [a; b] =>
      [b64_char (a / 4); b64_char (a mod 4 * 16 + b / 16);
       b64_char (b mod 16 * 4); 61]
  | a :: b :: c :: rest =>
      [b64_char (a / 4); b64_char (a mod 4 * 16 + b / 16);
       b64_char (b mod 16 * 4 + c / 64); b64_char (c mod 64)]
      ++ rfc4648_encode rest
  end.

(** The six-bit values of the encoding, without the padding. *)
Fixpoint sextets (bs : list Z) : list Z :=
  match bs with
  | [] => []
  | [a] => [a / 4; a mod 4 * 16]
  | [a; b] => [a / 4; a mod 4 * 16 + b / 16; b mod 16 * 4]
  | a :: b :: c :: rest =>
      [a / 4; a mod 4 * 16 + b / 16; b mod 16 * 4 + c / 64; c mod 64]
      ++ sextets rest
  end.

Definition padding (bs : list Z) : jsstring :=
  match (length bs mod 3)%nat with
  | 1%nat => [61; 61]
  | 2%nat => [61]
  | _ => []
  end.

(** The calls a computation adds to the log all satisfy [Q]. *)
Definition adds_only {A} (Q : GeminiService.call → Prop)
    (m : GeminiService.async A) : Prop :=
  ∀ log, ∃ rest, (m log).2 = log ++ rest ∧ Forall Q rest.

(** A call that is not a submission to the video-synthesis provider. *)
Definition not_submission (c : GeminiService.call) : Prop :=
  match c with
  | GeminiService.CallGenerateVideos _ => False
  | _ => True
  end.

(** The string-valued elements of a list of JSON values, in order. *)
Definition string_elements (l : list jsval) : list jsstring :=
  omap (λ p, match p with JStr s => Some s | _ => None end) l.

(** What a header for the given numbers holds, field by field. *)
Record header_of (h : list Z) (n sr ch bits : Q) : Prop := {
  hdr_length : length h = 44%nat;
  hdr_riff : tag h 0 = js "RIFF";
  hdr_wave : tag h 8 = js "WAVE";
  hdr_fmt : tag h 12 = js "fmt ";
  hdr_data : tag h 36 = js "data";
  hdr_chunk_size : field h 4 4 = ToUint32 (36 + n)%Q;
  hdr_subchunk1_size : field h 16 4 = 16;
  hdr_audio_format : field h 20 2 = 1;
  hdr_channels : field h 22 2 = ToUint16 ch;
  hdr_sample_rate : field h 24 4 = ToUint32 sr;
  hdr_byte_rate : field h 28 4 = ToUint32 (sr * ch * (bits / 8))%Q;
  hdr_block_align : field h 32 2 = ToUint16 (ch * (bits / 8))%Q;
  hdr_bits : field h 34 2 = ToUint16 bits;
  hdr_data_size : field h 40 4 = ToUint32 n
}.

(** Case analysis on every integer comparison of the goal. *)
Ltac cases_Z :=
  repeat match goal with
  | |- context [?a <? ?b] => destruct (Z.ltb_spec a b)
  | |- context [?a <=? ?b] => destruct (Z.leb_spec a b)
  | |- context [?a =? ?b] => destruct (Z.eqb_spec a b)
  end.

(** ** App.tsx: the component as a state machine *)

Module AppShell.

Import App.

(** [AppView] of [types.ts]. *)
Inductive AppView := TIMELINE | EDITOR | IMPORT | MTV | DETAIL | LIFE_CINEMA.

(** The six [useState] cells of [App]. *)
Record AppState := {
  entries : list JournalEntry;
  view : AppView;
  selectedIds : list jsstring;
  viewingEntry : option JournalEntry;
  isImporting : bool;
  isSelectionMode : bool
}.

Definition setEntries (v : list JournalEntry) (st : AppState) : AppState :=
  {| entries := v; view := view st; selectedIds := selectedIds st;
     viewingEntry := viewingEntry st; isImporting := isImporting st;
     isSelectionMode := isSelectionMode st |}.

Definition setView (v : AppView) (st : AppState) : AppState :=
  {| entries := entries st; view := v; selectedIds := selectedIds st;
     viewingEntry := viewingEntry st; isImporting := isImporting st;
     isSelectionMode := isSelectionMode st |}.

Definition setSelectedIds (v : list jsstring) (st : AppState) : AppState :=
  {| entries := entries st; view := view st; selectedIds := v;
     viewingEntry := viewingEntry st; isImporting := isImporting st;
     isSelectionMode := isSelectionMode st |}.

Definition setViewingEntry (v : option JournalEntry) (st : AppState)
  : AppState :=
  {| entries := entries st; view := view st; selectedIds := selectedIds st;
     viewingEntry := v; isImporting := isImporting st;
     isSelectionMode := isSelectionMode st |}.

Definition setIsImporting (v : bool) (st : AppState) : AppState :=
  {| entries := entries st; view := view st; selectedIds := selectedIds st;
     viewingEntry := viewingEntry st; isImporting := v;
     isSelectionMode := isSelectionMode st |}.

Definition setIsSelectionMode (v : bool) (st : AppState) : AppState :=
  {| entries := entries st; view := view st; selectedIds := selectedIds st;
     viewingEntry := viewingEntry st; isImporting := isImporting st;
     isSelectionMode := v |}.

(** The state of the first render; the entries are those read from local
    storage, if any. *)
Definition initial (saved : list JournalEntry) : AppState :=
  {| entries := saved; view := TIMELINE; selectedIds := [];
     viewingEntry := None; isImporting := false; isSelectionMode := false |}.

(** [{...entry, id: crypto.randomUUID()}] put in front of the entries. *)
Definition handleSaveEntry (uuid : jsstring) (entry : JournalEntry)
    (st : AppState) : AppState :=
  let newEntry :=
    {| id := uuid; date := date entry; content := content entry;
       images := images entry; mood := mood entry; tags := tags entry |} in
  setView TIMELINE (setEntries (newEntry :: entries st) st).

(** The [reader.onload] handler, on the state: the entries are updated
    from the state at that time, and the import panel closes on success. *)
Definition handleImportLoaded (randomUUID nowISOString : nat → jsstring)
    (JSON_parse : jsstring → result jsval) (fileText : jsstring)
    (st : AppState) : AppState :=
  match handleImport randomUUID nowISOString JSON_parse fileText (entries st)
  with
  | (es, SuccessfullyImported _) => setIsImporting false (setEntries es st)
  | (_, FailedToParse) => st
  end.

Definition toggleSelection (i : jsstring) (st : AppState) : AppState :=
  setSelectedIds (App.toggleSelection i (selectedIds st)) st.

Definition getSelectedEntries (st : AppState) : list JournalEntry :=
  filter (λ e, id e ∈ selectedIds st) (entries st).

(** An empty selection only raises an alert. *)
Definition startMtvMode (st : AppState) : AppState :=
  match selectedIds st with
  | [] => st
  | _ => setView MTV st
  end.

Definition handleEntryClick (entry : JournalEntry) (st : AppState)
  : AppState :=
  setView DETAIL (setViewingEntry (Some entry) st).

Definition toggleSelectionMode (st : AppState) : AppState :=
  let st' := setIsSelectionMode (negb (isSelectionMode st)) st in
  (* Clear selections when exiting mode *)
  if isSelectionMode st then setSelectedIds [] st' else st'.

(** [handleCardClick] of [JournalList], which gets [isSelectionMode],
    [toggleSelection] and [handleEntryClick] as props. *)
Definition handleCardClick (entry : JournalEntry) (st : AppState)
  : AppState :=
  if isSelectionMode st then toggleSelection (id entry) st
  else handleEntryClick entry st.

(** What the user or the environment can do. *)
Inductive event :=
  | NavTimeline
  | NavWrite
  | NavLifeCinema
  | NavImport
  | CancelImport
  | ImportLoaded (randomUUID nowISOString : nat → jsstring)
      (fileText : jsstring)
  | EditorSave (uuid : jsstring) (entry : JournalEntry)
  | Back
  | ClickSelectMultiple
  | ClickGenerateMtv
  | ClickCard (entry : JournalEntry).

(** Where the element that raises the event is rendered.  The sidebar is
    always there; the timeline header and the list of cards are rendered in
    the TIMELINE view only, the Generate button in selection mode only, and
    a card exists for each entry.  A file read started from the import panel
    may complete at any time. *)
Definition enabled (st : AppState) (ev : event) : Prop :=
  match ev with
  | NavTimeline | NavWrite | NavLifeCinema | NavImport => True
  | CancelImport => isImporting st = true
  | ImportLoaded _ _ _ => True
  | EditorSave _ _ => view st = EDITOR
  | Back => view st ≠ TIMELINE
  | ClickSelectMultiple => view st = TIMELINE
  | ClickGenerateMtv => view st = TIMELINE ∧ isSelectionMode st = true
  | ClickCard entry => view st = TIMELINE ∧ entry ∈ entries st
  end.

Section Handle.

Variable JSON_parse : jsstring → result jsval.

Definition handle (ev : event) (st : AppState) : AppState :=
  match ev with
  | NavTimeline =>
      setIsSelectionMode false (setSelectedIds [] (setView TIMELINE st))
  | NavWrite => setView EDITOR st
  | NavLifeCinema => setView LIFE_CINEMA st
  | NavImport => setIsImporting (negb (isImporting st)) st
  | CancelImport => setIsImporting false st
  | ImportLoaded randomUUID nowISOString fileText =>
      handleImportLoaded randomUUID nowISOString JSON_parse fileText st
  | EditorSave uuid entry => handleSaveEntry uuid entry st
  | Back => setView TIMELINE st
  | ClickSelectMultiple => toggleSelectionMode st
  | ClickGenerateMtv => startMtvMode st
  | ClickCard entry => handleCardClick entry st
  end.

(** The states the application can be in. *)
Inductive reachable : AppState → Prop :=
  | reachable_initial saved : reachable (initial saved)
  | reachable_step st ev :
      reachable st → enabled st ev → reachable (handle ev st).

End Handle.

End AppShell.

(** ** services/geminiService.ts: the voiceover *)

Module GeminiAudio.

Import GeminiService.

(** The request of a speech synthesis: the model, the script (the only
    part of the only content) and the prebuilt voice; the response modality
    is always audio. *)
Record SpeechParameters := {
  sp_model : jsstring;
  sp_text : jsstring;
  sp_voiceName : jsstring
}.

(** [response.candidates?.[0]?.content?.parts?.[0]?.inlineData?.data]. *)
Record SpeechResponse := { inlineData : option jsstring }.

Section Audio.

(** The provider's answer (an awaited rejection is a [Throw]) and
    [URL.createObjectURL]. *)
Variable generateSpeech : SpeechParameters → result SpeechResponse.
Variable createObjectURL : Blob → jsstring.

(** [voiceName] is an optional parameter with default ['Fenrir']. *)
Definition generateJournalAudio (script : jsstring)
    (voiceName : option jsstring) : result jsstring :=
  let voiceName := default (js "Fenrir") voiceName in
  response <-- generateSpeech
    {| sp_model := js "gemini-2.5-flash-preview-tts";
       sp_text := script;
       sp_voiceName := voiceName |} ;;
  match nonempty (inlineData response) with
  | None => Throw (Error (js "No audio data returned"))
  | Some base64Audio =>
      (* Convert raw PCM to WAV Blob URL *)
      blob <-- pcmToWavBlob base64Audio (Some 24000%Q) ;;
      Ok (createObjectURL blob)
  end.

End Audio.

End GeminiAudio.

(** ** components/Editor.tsx: tags and photos *)

Module Editor.

(** [[...new Set(l)]]: the values of [l] in the order of their first
    occurrence.  The tags are strings, which a [Set] compares by value. *)
Definition Set_values (l : list jsstring) : list jsstring :=
  foldl (λ seen x, if bool_decide (x ∈ seen) then seen else seen ++ [x]) [] l.

(** The tags set by [handleSuggestTags] once [suggestTags] has returned the
    list of strings its schema asks for:
    [[...new Set([...tags, ...suggested])]]. *)
Definition mergeSuggested (tags suggested : list jsstring) : list jsstring :=
  Set_values (tags ++ suggested).

(** [tags.filter(t => t !== tag)]. *)
Definition removeTag (tag : jsstring) (tags : list jsstring) : list jsstring :=
  filter (λ t, t ≠ tag) tags.

(** [images.filter((_, i) => i !== idx)], the elements being visited from
    index [i] on. *)
Fixpoint filter_index_from (i : nat) (idx : nat) (images : list jsstring)
  : list jsstring :=
  match images with
  | [] => []
  | img :: rest =>
      if decide (i ≠ idx) then img :: filter_index_from (S i) idx rest
      else filter_index_from (S i) idx rest
  end.

Definition removeImage (idx : nat) (images : list jsstring) : list jsstring :=
  filter_index_from 0 idx images.

End Editor.

(** ** Yardsticks of the further properties *)

(** A raw entry the import accepts: an object, a primitive or an array, but
    not [null]; and its [photos], when truthy, must be an array. *)
Definition importable (raw : jsval) : bool :=
  match raw with
  | JUndefined | JNull => false
  | JObj fields =>
      match default JUndefined (obj_lookup fields (js "photos")) with
      | JArr _ => true
      | photos => negb (truthy photos)
      end
  | _ => true
  end.

(** A buffer in which the bytes [bs] have replaced those at [offset]. *)
Definition write_at (offset : nat) (bs view : list Z) : list Z :=
  take offset view ++ bs ++ drop (offset + length bs) view.

(** The bytes of [value], least significant first, for a [size]-byte
    store. *)
Definition le_bytes (size : nat) (value : Z) : list Z :=
  map (λ k, byte_of (Z.of_nat k) value) (seq 0 size).

(** What every reachable state of the application satisfies. *)
Definition invariant (st : AppShell.AppState) : Prop :=
  NoDup (AppShell.selectedIds st) ∧
  (∀ i, i ∈ AppShell.selectedIds st →
        ∃ e, e ∈ AppShell.entries st ∧ App.id e = i) ∧
  (AppShell.isSelectionMode st = false → AppShell.selectedIds st = []) ∧
  (AppShell.view st = AppShell.MTV → AppShell.selectedIds st ≠ []) ∧
  AppShell.view st ≠ AppShell.IMPORT.

(** The calls of a run of polls: a five-second wait, then the poll. *)
Definition poll_calls (polls : list GeminiService.Operation)
  : list GeminiService.call :=
  concat (map (λ op, [GeminiService.CallSetTimeout 5000;
                      GeminiService.CallGetVideosOperation op]) polls).

(** [chained getVideosOperation log current polls last]: the operations of
    [polls] are what the provider answered, one after the other.  [current]
    is the answer in hand when the log is [log]; each polled operation is
    the answer in hand at that time, the answer to its poll is in hand
    next, and [last] is the answer in hand when the polls are over. *)
Fixpoint chained
    (getVideosOperation :
       list GeminiService.call → GeminiService.Operation
       → result GeminiService.Operation)
    (log : list GeminiService.call)
    (current : result GeminiService.Operation)
    (polls : list GeminiService.Operation)
    (last : result GeminiService.Operation) : Prop :=
  match polls with
  | [] => current = last
  | op :: polls' =>
      current = Ok op ∧
      chained getVideosOperation
        (log ++ [GeminiService.CallSetTimeout 5000;
                 GeminiService.CallGetVideosOperation op])
        (getVideosOperation (log ++ [GeminiService.CallSetTimeout 5000]) op)
        polls' last
  end.


(** * Properties *)

(** ** The audio container encoder *)

Lemma createWavHeader_bytes (n sr ch bits : Q) :
  createWavHeader n sr ch bits =
  Ok ([82; 73; 70; 70] ++
      map (λ k, byte_of k (ToUint32 (36 + n)%Q)) [0; 1; 2; 3] ++
      [87; 65; 86; 69] ++ [102; 109; 116; 32] ++
      map (λ k, byte_of k (ToUint32 16%Q)) [0; 1; 2; 3] ++
      map (λ k, byte_of k (ToUint16 1%Q)) [0; 1] ++
      map (λ k, byte_of k (ToUint16 ch)) [0; 1] ++
      map (λ k, byte_of k (ToUint32 sr)) [0; 1; 2; 3] ++
      map (λ k, byte_of k (ToUint32 (sr * ch * (bits / 8))%Q)) [0; 1; 2; 3] ++
      map (λ k, byte_of k (ToUint16 (ch * (bits / 8))%Q)) [0; 1] ++
      map (λ k, byte_of k (ToUint16 bits)) [0; 1] ++
      [100; 97; 116; 97] ++
      map (λ k, byte_of k (ToUint32 n)) [0; 1; 2; 3]).
Proof. reflexivity. Qed.

(** *** Bytes and little-endian fields *)

Lemma byte_of_div_mod (k x : Z) :
  0 ≤ k → byte_of k x = (x / 2 ^ (8 * k)) mod 256.
Proof.
  intros Hk. unfold byte_of.
  rewrite Z.shiftr_div_pow2 by lia.
  change 255 with (Z.ones 8). rewrite Z.land_ones by lia. reflexivity.
Qed.

Lemma le_decode_bytes32 (x : Z) :
  0 ≤ x < 2 ^ 32 → le_decode (map (λ k, byte_of k x) [0; 1; 2; 3]) = x.
Proof.
  intros Hx. cbn [map le_decode foldr].
  rewrite !byte_of_div_mod by lia.
  change (2 ^ (8 * 0)) with 1. change (2 ^ (8 * 1)) with 256.
  change (2 ^ (8 * 2)) with 65536. change (2 ^ (8 * 3)) with 16777216.
  change (2 ^ 32) with 4294967296 in Hx.
  Z.div_mod_to_equations. lia.
Qed.

Lemma le_decode_bytes16 (x : Z) :
  0 ≤ x < 2 ^ 16 → le_decode (map (λ k, byte_of k x) [0; 1]) = x.
Proof.
  intros Hx. cbn [map le_decode foldr].
  rewrite !byte_of_div_mod by lia.
  change (2 ^ (8 * 0)) with 1. change (2 ^ (8 * 1)) with 256.
  change (2 ^ 16) with 65536 in Hx.
  Z.div_mod_to_equations. lia.
Qed.

Lemma ToUint32_range (q : Q) : 0 ≤ ToUint32 q < 2 ^ 32.
Proof. unfold ToUint32. apply Z.mod_pos_bound. lia. Qed.

Lemma ToUint16_range (q : Q) : 0 ≤ ToUint16 q < 2 ^ 16.
Proof. unfold ToUint16. apply Z.mod_pos_bound. lia. Qed.

Lemma truncate_inject_Z (z : Z) : truncate (inject_Z z) = z.
Proof. unfold truncate, inject_Z. cbn [Qnum Qden]. apply Z.quot_1_r. Qed.

(** A number that is an integer truncates to that integer. *)
Lemma truncate_integer (q : Q) (z : Z) : (q == inject_Z z)%Q → truncate q = z.
Proof.
  unfold Qeq, truncate, inject_Z. cbn [Qnum Qden]. intros H.
  rewrite Z.mul_1_r in H. rewrite H. apply Z.quot_mul. lia.
Qed.



Lemma truncate_riff_length (n : Z) : truncate (36 + inject_Z n)%Q = 36 + n.
Proof.
  cbv [truncate Qplus inject_Z Qnum Qden Pos.mul].
  rewrite Z.quot_1_r. lia.
Qed.

(** *** The header, field by field *)

Lemma createWavHeader_total (n sr ch bits : Q) :
  ∃ h, createWavHeader n sr ch bits = Ok h ∧ header_of h n sr ch bits.
Proof.
  eexists. split; [apply createWavHeader_bytes|].
  split; try reflexivity; unfold field;
    cbn [app take drop];
    first [ apply (le_decode_bytes32 _ (ToUint32_range _))
          | apply (le_decode_bytes16 _ (ToUint16_range _)) ].
Qed.

Lemma ToUint32_inject_Z (z : Z) : ToUint32 (inject_Z z) = z mod 2 ^ 32.
Proof. unfold ToUint32. by rewrite truncate_inject_Z. Qed.

Lemma ToUint16_inject_Z (z : Z) : ToUint16 (inject_Z z) = z mod 2 ^ 16.
Proof. unfold ToUint16. by rewrite truncate_inject_Z. Qed.

Lemma ToUint32_integer (q : Q) (z : Z) :
  (q == inject_Z z)%Q → 0 ≤ z < 2 ^ 32 → ToUint32 q = z.
Proof.
  intros Hq Hz. unfold ToUint32. rewrite (truncate_integer q z Hq).
  apply Z.mod_small, Hz.
Qed.

Lemma ToUint16_integer (q : Q) (z : Z) :
  (q == inject_Z z)%Q → 0 ≤ z < 2 ^ 16 → ToUint16 q = z.
Proof.
  intros Hq Hz. unfold ToUint16. rewrite (truncate_integer q z Hq).
  apply Z.mod_small, Hz.
Qed.

(** C1, as amended.  For all integers [n] (the payload length), [sr], [ch]
    and [bits], [createWavHeader] returns a header with "RIFF" at offset 0,
    "WAVE" at 8, "fmt " at 12 and "data" at 36, subchunk1 size 16 at 16 and
    audio format 1 at 20; and every other little-endian field holds the
    specified value whenever that value is an integer that fits the field:
    36 + n at 4 and n at 40 when 0 <= n and 36 + n < 2^32, ch at 22 when
    0 <= ch < 2^16, sr at 24 when 0 <= sr < 2^32, the byte rate
    sr * ch * (bits / 8) at 28 when it is an integer in [0, 2^32), the block
    align ch * (bits / 8) at 32 when it is an integer in [0, 2^16), and bits
    at 34 when 0 <= bits < 2^16. *)
Theorem wav_header_layout (n sr ch bits : Z) :
  ∃ h,
    createWavHeader (inject_Z n) (inject_Z sr) (inject_Z ch) (inject_Z bits)
      = Ok h ∧
    tag h 0 = js "RIFF" ∧ tag h 8 = js "WAVE" ∧
    tag h 12 = js "fmt " ∧ tag h 36 = js "data" ∧
    field h 16 4 = 16 ∧ field h 20 2 = 1 ∧
    (0 ≤ n → 36 + n < 2 ^ 32 → field h 4 4 = 36 + n ∧ field h 40 4 = n) ∧
    (0 ≤ ch < 2 ^ 16 → field h 22 2 = ch) ∧
    (0 ≤ sr < 2 ^ 32 → field h 24 4 = sr) ∧
    (∀ byteRate,
       (inject_Z sr * inject_Z ch * (inject_Z bits / 8) == inject_Z byteRate)%Q →
       0 ≤ byteRate < 2 ^ 32 → field h 28 4 = byteRate) ∧
    (∀ blockAlign,
       (inject_Z ch * (inject_Z bits / 8) == inject_Z blockAlign)%Q →
       0 ≤ blockAlign < 2 ^ 16 → field h 32 2 = blockAlign) ∧
    (0 ≤ bits < 2 ^ 16 → field h 34 2 = bits).
Proof.
  destruct (createWavHeader_total (inject_Z n) (inject_Z sr) (inject_Z ch)
              (inject_Z bits)) as (h & Hh & []).
  exists h. repeat split; try assumption.
  - rewrite hdr_chunk_size0. unfold ToUint32.
    rewrite truncate_riff_length. apply Z.mod_small. lia.
  - rewrite hdr_data_size0, ToUint32_inject_Z. apply Z.mod_small. lia.
  - intros Hch. rewrite hdr_channels0, ToUint16_inject_Z.
    by apply Z.mod_small.
  - intros Hsr. rewrite hdr_sample_rate0, ToUint32_inject_Z.
    by apply Z.mod_small.
  - intros br Hq Hbr. rewrite hdr_byte_rate0. by apply ToUint32_integer.
  - intros ba Hq Hba. rewrite hdr_block_align0. by apply ToUint16_integer.
  - intros Hbits. rewrite hdr_bits0, ToUint16_inject_Z.
    by apply Z.mod_small.
Qed.

(** The header of the spec's example: 24000 Hz, mono, 16 bits, 4 bytes. *)
Lemma wav_header_layout_witness :
  ∃ h,
    createWavHeader (inject_Z 4) (inject_Z 24000) (inject_Z 1) (inject_Z 16)
      = Ok h ∧
    field h 4 4 = 40 ∧ field h 40 4 = 4 ∧ field h 22 2 = 1 ∧
    field h 24 4 = 24000 ∧ field h 28 4 = 48000 ∧ field h 32 2 = 2 ∧
    field h 34 2 = 16.
Proof.
  destruct (wav_header_layout 4 24000 1 16)
    as (h & Hh & _ & _ & _ & _ & _ & _ & Hn & Hch & Hsr & Hbr & Hba & Hbits).
  exists h. split; [exact Hh|].
  destruct Hn as [H4 H40]; [lia | lia |].
  split; [exact H4|]. split; [exact H40|].
  split; [apply Hch; lia|]. split; [apply Hsr; lia|].
  split; [apply Hbr; [reflexivity | lia]|].
  split; [apply Hba; [reflexivity | lia]|].
  apply Hbits; lia.
Defined.

(** C1 as stated fails: a channel count of 65537 does not fit its 16-bit
    field, which then reads 1. *)
Lemma wav_header_layout_counterexample :
  ∃ h,
    createWavHeader (inject_Z 4) (inject_Z 24000) (inject_Z 65537)
      (inject_Z 16) = Ok h ∧
    field h 22 2 ≠ 65537.
Proof.
  eexists. split; [vm_compute; reflexivity|].
  vm_compute. discriminate.
Qed.



(** C3 as stated fails: a sample rate of 0 and a channel count of -1 are
    encoded, not rejected. *)
Lemma encoder_rejects_nothing_counterexample :
  ∃ h,
    createWavHeader (inject_Z 4) (inject_Z 0) (inject_Z (-1)) (inject_Z 16)
      = Ok h ∧
    field h 24 4 = 0 ∧ field h 22 2 = 65535.
Proof. eexists. split; [vm_compute; reflexivity|]. by vm_compute. Qed.

(** C3, as amended.  The encoder validates nothing: for all numbers, zero
    and negative ones included, [createWavHeader] returns a 44-byte header
    and never throws; and the only way [pcmToWavBlob] fails is the
    [InvalidCharacterError] of the base64 decoder, whatever the sample
    rate. *)
Theorem encoder_never_rejects_parameters :
  (∀ n sr ch bits : Q,
     (∃ h, createWavHeader n sr ch bits = Ok h ∧ length h = 44%nat) ∧
     (∀ e, createWavHeader n sr ch bits ≠ Throw e)) ∧
  (∀ base64Data sampleRate e,
     pcmToWavBlob base64Data sampleRate = Throw e ↔
     e = InvalidCharacterError ∧ base64ToUint8Array base64Data = Throw e).
Proof.
  split.
  - intros n sr ch bits.
    destruct (createWavHeader_total n sr ch bits) as (h & Hh & []).
    split; [by exists h|]. intros e. by rewrite Hh.
  - intros b64 sr e. unfold pcmToWavBlob, base64ToUint8Array.
    destruct (atob b64) as [s|e'] eqn:Hatob; cbn [bind].
    + match goal with |- context [createWavHeader ?a ?b ?c ?d] =>
        destruct (createWavHeader_total a b c d) as (h & -> & _) end.
      cbn [bind]. split; [discriminate|]. by intros [_ ?].
    + assert (e' = InvalidCharacterError) as ->.
      { unfold atob in Hatob. repeat case_match; congruence. }
      split; [intros [= <-]; done | by intros [-> _]].
Qed.

(** C2.  Whatever the decoder returns as [pcmData], the blob built by
    [pcmToWavBlob] is the 44-byte header of that length (one channel,
    16 bits) followed by [pcmData] itself, 44 + len(pcmData) bytes in all;
    for an empty payload the output is the header alone, with 0 at offset
    40 and 36 at offset 4.  A header has 44 bytes for all parameters. *)
Theorem wav_blob_is_header_then_payload (base64Data : jsstring)
    (sampleRate : option Q) (pcmData : list Z) :
  base64ToUint8Array base64Data = Ok pcmData →
  ∃ h blob,
    createWavHeader (inject_Z (Z.of_nat (length pcmData)))
      (default 24000%Q sampleRate) 1%Q 16%Q = Ok h ∧
    pcmToWavBlob base64Data sampleRate = Ok blob ∧
    length h = 44%nat ∧
    blob_bytes blob = h ++ pcmData ∧
    take 44 (blob_bytes blob) = h ∧
    drop 44 (blob_bytes blob) = pcmData ∧
    length (blob_bytes blob) = (44 + length pcmData)%nat ∧
    (pcmData = [] →
       length (blob_bytes blob) = 44%nat ∧
       field (blob_bytes blob) 40 4 = 0 ∧ field (blob_bytes blob) 4 4 = 36) ∧
    (∀ n sr ch bits h',
       createWavHeader n sr ch bits = Ok h' → length (h' ++ pcmData)
       = (44 + length pcmData)%nat).
Proof.
  intros Hdec. unfold pcmToWavBlob. rewrite Hdec. cbn [bind].
  destruct (createWavHeader_total (inject_Z (Z.of_nat (length pcmData)))
              (default 24000%Q sampleRate) 1%Q 16%Q) as (h & Hh & Hhdr).
  rewrite Hh. cbn [bind]. eexists h, _.
  split; [reflexivity|]. split; [reflexivity|].
  pose proof (hdr_length _ _ _ _ _ Hhdr) as Hlen.
  unfold blob_bytes. cbn [blobParts concat]. rewrite app_nil_r.
  split; [exact Hlen|]. split; [reflexivity|].
  split; [by rewrite <- Hlen, take_app_length|].
  split; [by rewrite <- Hlen, drop_app_length|].
  split; [by rewrite length_app, Hlen|].
  split.
  - intros ->. rewrite app_nil_r. split; [exact Hlen|]. split.
    + by rewrite (hdr_data_size _ _ _ _ _ Hhdr).
    + by rewrite (hdr_chunk_size _ _ _ _ _ Hhdr).
  - intros n sr ch bits h' Hh'.
    destruct (createWavHeader_total n sr ch bits) as (h'' & Hh'' & []).
    rewrite Hh' in Hh''. injection Hh'' as ->.
    by rewrite length_app, hdr_length0.
Qed.

Lemma wav_blob_is_header_then_payload_witness :
  base64ToUint8Array (js "AQIDBA==") = Ok [1; 2; 3; 4] ∧
  ∃ h blob,
    pcmToWavBlob (js "AQIDBA==") None = Ok blob ∧
    blob_bytes blob = h ++ [1; 2; 3; 4] ∧
    length (blob_bytes blob) = 48%nat.
Proof.
  split; [vm_compute; reflexivity|].
  destruct (wav_blob_is_header_then_payload (js "AQIDBA==") None [1; 2; 3; 4])
    as (h & blob & _ & Hblob & _ & Hbytes & _ & _ & Hlen & _);
    [vm_compute; reflexivity|].
  exists h, blob. split; [exact Hblob|]. split; [exact Hbytes|]. exact Hlen.
Defined.

(** ** The base64 payload decoder *)

Lemma b64_index_char (n : Z) : is_sextet n → b64_index (b64_char n) = Some n.
Proof.
  unfold is_sextet, b64_char. intros Hn. cases_Z; unfold b64_index;
    cases_Z; cbn [andb]; try lia; f_equal; lia.
Qed.

Lemma b64_char_not_whitespace (n : Z) :
  is_sextet n → is_ascii_whitespace (b64_char n) = false.
Proof.
  unfold is_sextet, b64_char. intros Hn. cases_Z; unfold is_ascii_whitespace;
    cases_Z; cbn [orb]; try lia; reflexivity.
Qed.

Lemma b64_char_not_pad (n : Z) : is_sextet n → b64_char n ≠ 61.
Proof. unfold is_sextet, b64_char. intros Hn. cases_Z; lia. Qed.

(** Lists three elements at a time. *)
Lemma list_ind3 {A} (P : list A → Prop) :
  P [] → (∀ a, P [a]) → (∀ a b, P [a; b]) →
  (∀ a b c l, P l → P (a :: b :: c :: l)) →
  ∀ l, P l.
Proof.
  intros H0 H1 H2 H3. fix IH 1.
  intros [|a [|b [|c l]]]; [apply H0 | apply H1 | apply H2 | apply H3, IH].
Qed.

Lemma padding_cons3 (a b c : Z) (l : list Z) :
  padding (a :: b :: c :: l) = padding l.
Proof.
  unfold padding. cbn [length].
  replace (S (S (S (length l)))) with (length l + 1 * 3)%nat by lia.
  by rewrite Nat.Div0.mod_add.
Qed.

Lemma encode_sextets (bs : list Z) :
  rfc4648_encode bs = map b64_char (sextets bs) ++ padding bs.
Proof.
  induction bs as [|a|a b|a b c l IH] using list_ind3; try reflexivity.
  cbn [rfc4648_encode sextets]. rewrite IH, padding_cons3.
  rewrite map_app, <- app_assoc. reflexivity.
Qed.

Lemma sextets_range (bs : list Z) :
  Forall is_byte bs → Forall is_sextet (sextets bs).
Proof.
  unfold is_byte, is_sextet.
  induction bs as [|a|a b|a b c l IH] using list_ind3; intros Hbs;
    cbn [sextets]; rewrite ?Forall_cons in Hbs; destruct_and?.
  - constructor.
  - repeat constructor; Z.div_mod_to_equations; lia.
  - repeat constructor; Z.div_mod_to_equations; lia.
  - apply Forall_app. split; [|by apply IH].
    repeat constructor; Z.div_mod_to_equations; lia.
Qed.

(** The length of the encoding body determines the padding. *)
Lemma sextets_length (bs : list Z) :
  (length (sextets bs) mod 4 = 0)%nat ∧ padding bs = []
  ∨ (length (sextets bs) mod 4 = 2)%nat ∧ padding bs = [61; 61]
  ∨ (length (sextets bs) mod 4 = 3)%nat ∧ padding bs = [61].
Proof.
  induction bs as [|a|a b|a b c l IH] using list_ind3;
    [left | right; left | right; right | ]; try (split; reflexivity).
  rewrite padding_cons3. cbn [sextets]. rewrite length_app. cbn [length].
  replace (4 + length (sextets l))%nat
    with (length (sextets l) + 1 * 4)%nat by lia.
  by rewrite Nat.Div0.mod_add.
Qed.

(** The bit buffer after the six-bit values of one, two and three bytes. *)
Lemma buffer12 (a : Z) : (0 * 64 + a / 4) * 64 + a mod 4 * 16 = a * 16.
Proof. Z.div_mod_to_equations; lia. Qed.

Lemma buffer18 (a b : Z) :
  ((0 * 64 + a / 4) * 64 + (a mod 4 * 16 + b / 16)) * 64 + b mod 16 * 4
  = (a * 256 + b) * 4.
Proof. Z.div_mod_to_equations; lia. Qed.

Lemma buffer24 (a b c : Z) :
  (((0 * 64 + a / 4) * 64 + (a mod 4 * 16 + b / 16)) * 64
   + (b mod 16 * 4 + c / 64)) * 64 + c mod 64
  = a * 65536 + b * 256 + c.
Proof. Z.div_mod_to_equations; lia. Qed.

(** Four six-bit values fill the buffer, which is then flushed. *)
Lemma decode_loop_group (s1 s2 s3 s4 : Z) (rest out : list Z) :
  decode_loop (s1 :: s2 :: s3 :: s4 :: rest) 0 0 out =
  let buffer := (((0 * 64 + s1) * 64 + s2) * 64 + s3) * 64 + s4 in
  decode_loop rest 0 0
    (out ++ [buffer / 65536; (buffer / 256) mod 256; buffer mod 256]).
Proof. reflexivity. Qed.

(** The decoding loop undoes the grouping into six-bit values. *)
Lemma decode_sextets (bs : list Z) :
  Forall is_byte bs → ∀ out, decode_loop (sextets bs) 0 0 out = out ++ bs.
Proof.
  unfold is_byte.
  induction bs as [|a|a b|a b c l IH] using list_ind3; intros Hbs out;
    rewrite ?Forall_cons in Hbs; destruct_and?.
  - cbn. by rewrite app_nil_r.
  - cbn -[Z.div Z.modulo Z.mul Z.add]. rewrite buffer12. f_equal.
    f_equal; Z.div_mod_to_equations; lia.
  - cbn -[Z.div Z.modulo Z.mul Z.add]. rewrite buffer18. f_equal.
    rewrite Z.div_mul by lia.
    f_equal; [|f_equal]; Z.div_mod_to_equations; lia.
  - cbn [sextets app]. rewrite decode_loop_group. cbv zeta.
    rewrite buffer24, IH by assumption.
    rewrite <- app_assoc. f_equal. cbn [app].
    f_equal; [|f_equal; [|f_equal]]; Z.div_mod_to_equations; lia.
Qed.

(** The copy loop of [base64ToUint8Array], started at index [length s1]
    with the bytes [done] already written. *)
Lemma Uint8Array_fill (s s1 s2 done : list Z) :
  s = s1 ++ s2 → length done = length s1 →
  foldl (λ bytes i, Uint8Array_set bytes i (charCodeAt s i))
        (done ++ replicate (length s2) 0) (seq (length s1) (length s2))
  = done ++ map (λ c, ToUint8 (inject_Z c)) s2.
Proof.
  revert s1 done. induction s2 as [|c s2 IH]; intros s1 done -> Hlen.
  - reflexivity.
  - cbn [length seq foldl replicate map].
    assert (charCodeAt (s1 ++ c :: s2) (length s1) = Some c) as ->
      by (by apply list_lookup_middle).
    unfold Uint8Array_set at 2.
    rewrite insert_app_r_alt by lia.
    rewrite Hlen, Nat.sub_diag. cbn [from_option].
    change (<[0%nat:=?v]> (?x :: ?l)) with (v :: l).
    rewrite (cons_middle _ done), app_assoc.
    replace (S (length s1)) with (length (s1 ++ [c]))
      by (rewrite length_app; cbn; lia).
    rewrite (IH (s1 ++ [c])).
    + by rewrite <- app_assoc.
    + by rewrite <- app_assoc.
    + rewrite !length_app. cbn. lia.
Qed.

Lemma base64ToUint8Array_atob (base64 : jsstring) :
  base64ToUint8Array base64 =
  (binaryString <-- atob base64 ;;
   Ok (map (λ c, ToUint8 (inject_Z c)) binaryString)).
Proof.
  unfold base64ToUint8Array. destruct (atob base64) as [s|e]; [|done].
  cbn [bind]. f_equal.
  exact (Uint8Array_fill s [] s [] eq_refl eq_refl).
Qed.

Lemma ToUint8_byte (b : Z) : is_byte b → ToUint8 (inject_Z b) = b.
Proof.
  intros Hb. unfold ToUint8. rewrite truncate_inject_Z.
  by apply Z.mod_small.
Qed.

Lemma filter_all {A} (P : A → Prop) `{∀ x, Decision (P x)} (l : list A) :
  Forall P l → filter P l = l.
Proof.
  induction 1 as [|x l Hx _ IH]; [done|].
  by rewrite filter_cons_True, IH.
Qed.

Lemma pad_not_suffix (body : list Z) (k : list Z) :
  Forall (λ c, c ≠ 61) body → ¬ (k ++ [61]) `suffix_of` body.
Proof.
  intros Hbody [pre ->].
  apply Forall_app in Hbody as [_ Hbody].
  apply Forall_app in Hbody as [_ Hbody].
  inversion Hbody as [|? ? Hne _]. by apply Hne.
Qed.

(** Step 2 of the decoder takes the padding of an encoding away. *)
Lemma remove_padding_encoded (body pad : list Z) :
  Forall (λ c, c ≠ 61) body →
  (length body mod 4 = 0)%nat ∧ pad = []
  ∨ (length body mod 4 = 2)%nat ∧ pad = [61; 61]
  ∨ (length body mod 4 = 3)%nat ∧ pad = [61] →
  remove_padding (body ++ pad) = body.
Proof.
  intros Hbody [[Hlen ->]|[[Hlen ->]|[Hlen ->]]]; unfold remove_padding, ends_with.
  - rewrite app_nil_r, decide_True by done.
    rewrite !bool_decide_eq_false_2; [done|..].
    + apply (pad_not_suffix body []), Hbody.
    + apply (pad_not_suffix body [61]), Hbody.
  - rewrite decide_True
      by (by rewrite length_app, Nat.Div0.add_mod, Hlen).
    rewrite bool_decide_eq_true_2 by (by exists body).
    apply take_app_length'. rewrite length_app. cbn. lia.
  - rewrite decide_True
      by (by rewrite length_app, Nat.Div0.add_mod, Hlen).
    rewrite bool_decide_eq_false_2.
    + rewrite bool_decide_eq_true_2 by (by exists body).
      apply take_app_length'. rewrite length_app. cbn. lia.
    + intros Hsuf. apply (suffix_snoc_inv_2 61 61 [61] body) in Hsuf.
      by apply (pad_not_suffix body []) in Hsuf.
Qed.

Lemma atob_encode (bs : list Z) :
  Forall is_byte bs → atob (rfc4648_encode bs) = Ok bs.
Proof.
  intros Hbs. pose proof (sextets_range bs Hbs) as Hsx.
  unfold atob. rewrite encode_sextets. cbv zeta.
  rewrite filter_all.
  2:{ apply Forall_app. split.
      - apply Forall_fmap. eapply Forall_impl; [exact Hsx|].
        intros n Hn. by apply b64_char_not_whitespace.
      - unfold padding. repeat case_match; by repeat constructor. }
  rewrite remove_padding_encoded.
  2:{ apply Forall_fmap. eapply Forall_impl; [exact Hsx|].
      intros n Hn. by apply b64_char_not_pad. }
  2:{ rewrite length_map. apply sextets_length. }
  rewrite decide_False.
  2:{ rewrite length_map. destruct (sextets_length bs) as [[-> _]|[[-> _]|[-> _]]]; lia. }
  rewrite mapM_fmap_Forall_Some.
  2:{ eapply Forall_impl; [exact Hsx|]. intros n Hn. by apply b64_index_char. }
  by rewrite decode_sextets.
Qed.

(** C5.  For every byte sequence [b], the empty one included, decoding the
    RFC 4648 encoding of [b] yields exactly [b]. *)
Theorem decode_encode_roundtrip (b : list Z) :
  Forall is_byte b → base64ToUint8Array (rfc4648_encode b) = Ok b.
Proof.
  intros Hb. rewrite base64ToUint8Array_atob, atob_encode by done.
  cbn [bind]. f_equal.
  rewrite <- (list_fmap_id b) at 2. apply Forall_fmap_ext_1.
  eapply Forall_impl; [exact Hb|]. intros x Hx. by apply ToUint8_byte.
Qed.

Lemma decode_encode_roundtrip_witness :
  Forall is_byte [0; 255; 16; 131; 7] ∧
  base64ToUint8Array (rfc4648_encode [0; 255; 16; 131; 7])
  = Ok [0; 255; 16; 131; 7].
Proof.
  assert (Forall is_byte [0; 255; 16; 131; 7]) as Hb
    by (repeat constructor; unfold is_byte; lia).
  split; [exact Hb|]. exact (decode_encode_roundtrip _ Hb).
Defined.

(** *** What the decoder rejects *)

Lemma base64_char_class_false (c : Z) :
  base64_char_class c = false → b64_index c = None ∧ c ≠ 61.
Proof.
  unfold base64_char_class, b64_index.
  cases_Z; cbn [andb orb]; intros; try discriminate; split; (done || lia).
Qed.

Lemma remove_padding_cases (data : jsstring) :
  ∃ pad, data = remove_padding data ++ pad
         ∧ (pad = [] ∨ pad = [61] ∨ pad = [61; 61]).
Proof.
  unfold remove_padding, ends_with.
  destruct (decide (length data mod 4 = 0)%nat) as [_|_];
    [|exists []; by rewrite app_nil_r; auto].
  destruct (bool_decide_reflect ([61; 61] `suffix_of` data)) as [[pre ->]|_].
  { exists [61; 61]. rewrite take_app_length'; [auto|].
    rewrite length_app. cbn. lia. }
  destruct (bool_decide_reflect ([61] `suffix_of` data)) as [[pre ->]|_].
  { exists [61]. rewrite take_app_length'; [auto|].
    rewrite length_app. cbn. lia. }
  exists []. rewrite app_nil_r. auto.
Qed.

Lemma atob_spec (s : jsstring) :
  atob s =
  if decide (length (significant s) mod 4 = 1)%nat
  then Throw InvalidCharacterError
  else match mapM b64_index (significant s) with
       | None => Throw InvalidCharacterError
       | Some sextets => Ok (decode_loop sextets 0 0 [])
       end.
Proof. reflexivity. Qed.

Lemma mapM_b64_index_None (data : jsstring) (c : Z) :
  c ∈ data → b64_index c = None → mapM b64_index data = None.
Proof.
  intros Hc Hnone. induction Hc as [c l|c y l _ IH]; cbn.
  - by rewrite Hnone.
  - rewrite (IH Hnone). by destruct (b64_index y).
Qed.

Lemma mapM_b64_index_None_inv (data : jsstring) :
  mapM b64_index data = None → ∃ c, c ∈ data ∧ b64_index c = None.
Proof.
  induction data as [|x l IH]; cbn; [done|].
  destruct (b64_index x) eqn:Hx.
  - destruct (mapM b64_index l); [done|]. intros _.
    destruct IH as (c & Hc & Hnone); [done|].
    exists c. split; [by apply list_elem_of_further|done].
  - intros _. exists x. split; [apply list_elem_of_here|done].
Qed.

Lemma mapM_b64_index_Some (data : jsstring) (k : list Z) :
  mapM b64_index data = Some k → Forall (λ c, is_Some (b64_index c)) data.
Proof.
  intros Hk. apply mapM_Some_1 in Hk.
  induction Hk as [|c n l k' Hc _ IH]; constructor; [by exists n|done].
Qed.

(** Every six bits read end up in the output, but for the last two, four
    or six of them: [8 * |result| + 2 * r = 8 * |output| + nbits + 6 * |data|]
    with [r < 4]. *)
Lemma decode_loop_length (data : list Z) :
  ∀ buffer nbits output,
    (nbits = 0 ∨ nbits = 6 ∨ nbits = 12 ∨ nbits = 18)%nat →
    ∃ r, (r < 4)%nat ∧
      (2 * (4 * length (decode_loop data buffer nbits output) + r)
       = 8 * length output + nbits + 6 * length data)%nat.
Proof.
  induction data as [|n rest IH]; intros buffer nbits output Hn;
    cbn [decode_loop length].
  - repeat case_decide; rewrite ?length_app; cbn [length].
    + exists 2%nat. lia.
    + exists 1%nat. lia.
    + destruct Hn as [->|[->|[->| ->]]]; [exists 0%nat|exists 3%nat|..]; lia.
  - case_decide.
    + destruct (IH 0 0%nat
                  (output ++ [(buffer * 64 + n) / 65536;
                              ((buffer * 64 + n) / 256) mod 256;
                              (buffer * 64 + n) mod 256]))
        as (r & Hr & Hlen); [auto|].
      exists r. split; [done|]. rewrite Hlen, length_app. cbn [length]. lia.
    + destruct (IH (buffer * 64 + n) (nbits + 6)%nat output)
        as (r & Hr & Hlen); [lia|].
      exists r. split; [done|]. rewrite Hlen. lia.
Qed.

(** C4 as stated fails: a space is outside [[A-Za-z0-9+/=]], yet the input
    is decoded. *)
Lemma decoder_accepts_whitespace_counterexample :
  32 ∈ js "AA AA" ∧ base64_char_class 32 = false ∧
  base64ToUint8Array (js "AA AA") = Ok [0; 0; 0].
Proof.
  split; [|split]; [|reflexivity|vm_compute; reflexivity].
  vm_compute. do 2 apply list_elem_of_further. apply list_elem_of_here.
Qed.

(** C4, as amended.  The decoder first drops the ASCII whitespace (tab,
    line feed, form feed, carriage return, space) and, when what is left has
    a length that is a multiple of four, one or two trailing [=] signs.
    Then:
    - an input with a character outside [[A-Za-z0-9+/=]] that is not ASCII
      whitespace fails with the platform's [InvalidCharacterError];
    - the decoder fails, always with that error, exactly when what is left
      has length 1 modulo 4 or holds a character outside [[A-Za-z0-9+/]] (an
      [=] that was not removed is one);
    - a successful decode uses every character that is left: all are in the
      alphabet and [k] of them give [floor (3 * k / 4)] bytes. *)
Theorem decoder_rejects_foreign_characters (s : jsstring) :
  (∀ c, c ∈ s → base64_char_class c = false → is_ascii_whitespace c = false →
        base64ToUint8Array s = Throw InvalidCharacterError) ∧
  (∀ e, base64ToUint8Array s = Throw e ↔
        e = InvalidCharacterError ∧
        ((length (significant s) mod 4 = 1)%nat
         ∨ ∃ c, c ∈ significant s ∧ b64_index c = None)) ∧
  (∀ bytes, base64ToUint8Array s = Ok bytes →
        Forall (λ c, is_Some (b64_index c)) (significant s) ∧
        length bytes = (3 * length (significant s) / 4)%nat).
Proof.
  assert (∀ e, base64ToUint8Array s = Throw e ↔
        e = InvalidCharacterError ∧
        ((length (significant s) mod 4 = 1)%nat
         ∨ ∃ c, c ∈ significant s ∧ b64_index c = None)) as Hthrow.
  { intros e. rewrite base64ToUint8Array_atob, atob_spec. case_decide.
    - cbn [bind]. split; [intros [= <-]; auto | by intros [-> _]].
    - destruct (mapM b64_index (significant s)) as [k|] eqn:Hk; cbn [bind].
      + split; [done|]. intros [_ [?|(c & Hc & Hnone)]]; [done|].
        by rewrite (mapM_b64_index_None _ c Hc Hnone) in Hk.
      + split; [intros [= <-] | by intros [-> _]].
        split; [done|]. right. by apply mapM_b64_index_None_inv. }
  split; [|split; [exact Hthrow|]].
  - intros c Hc Hclass Hws. apply Hthrow. split; [done|]. right. exists c.
    apply base64_char_class_false in Hclass as [Hnone Hpad].
    split; [|done]. unfold significant.
    destruct (remove_padding_cases
                (filter (λ c, is_ascii_whitespace c = false) s))
      as (pad & Heq & Hpads).
    assert (c ∈ filter (λ c, is_ascii_whitespace c = false) s) as Hin
      by (by apply list_elem_of_filter).
    rewrite Heq in Hin. apply elem_of_app in Hin as [Hin|Hin]; [done|].
    exfalso. apply Hpad.
    destruct Hpads as [->|[->| ->]];
      rewrite ?elem_of_cons, elem_of_nil in Hin; tauto.
  - intros bytes. rewrite base64ToUint8Array_atob, atob_spec. case_decide as Hlen; [done|].
    destruct (mapM b64_index (significant s)) as [k|] eqn:Hk; [|done].
    cbn [bind]. intros [= <-]. split.
    + by apply (mapM_b64_index_Some _ k).
    + rewrite length_map. apply length_mapM in Hk.
      destruct (decode_loop_length k 0 0%nat []) as (r & Hr & Heq); [auto|].
      cbn [length] in Heq.
      apply (Nat.div_unique _ 4 _ r); lia.
Qed.

Lemma decoder_rejects_foreign_characters_witness :
  42 ∈ js "AA*A" ∧ base64_char_class 42 = false ∧
  is_ascii_whitespace 42 = false ∧
  base64ToUint8Array (js "AA*A") = Throw InvalidCharacterError.
Proof.
  assert (42 ∈ js "AA*A") as Hin
    by (vm_compute; do 2 apply list_elem_of_further; apply list_elem_of_here).
  split; [exact Hin|]. split; [reflexivity|]. split; [reflexivity|].
  exact (proj1 (decoder_rejects_foreign_characters (js "AA*A")) 42 Hin
           eq_refl eq_refl).
Defined.

(** ** App.tsx: selection and import *)

Import App.

Lemma filter_ne_absent (id : jsstring) (l : list jsstring) :
  id ∉ l → filter (λ sid, sid ≠ id) l = l.
Proof.
  intros Hid. apply filter_all, Forall_forall. intros x Hx ->. by apply Hid.
Qed.

Lemma toggleSelection_present (id : jsstring) (selectedIds : list jsstring) :
  id ∈ selectedIds →
  toggleSelection id selectedIds = filter (λ sid, sid ≠ id) selectedIds.
Proof.
  intros Hin. unfold toggleSelection, includes.
  by rewrite bool_decide_eq_true_2.
Qed.

Lemma toggleSelection_absent (id : jsstring) (selectedIds : list jsstring) :
  id ∉ selectedIds → toggleSelection id selectedIds = selectedIds ++ [id].
Proof.
  intros Hin. unfold toggleSelection, includes.
  by rewrite bool_decide_eq_false_2.
Qed.

(** C10.  On a duplicate-free [selectedIds], [toggleSelection] takes [id]
    out when it is there (the rest keeps its order) and appends it at the end
    when it is not; the result is duplicate-free again; and toggling twice
    an [id] that was not selected gives the list back. *)
Theorem toggleSelection_spec (id : jsstring) (selectedIds : list jsstring) :
  NoDup selectedIds →
  (id ∈ selectedIds →
     toggleSelection id selectedIds = filter (λ sid, sid ≠ id) selectedIds ∧
     (id ∉ toggleSelection id selectedIds) ∧
     (∃ before after,
        selectedIds = before ++ id :: after ∧
        toggleSelection id selectedIds = before ++ after)) ∧
  (id ∉ selectedIds → toggleSelection id selectedIds = selectedIds ++ [id]) ∧
  NoDup (toggleSelection id selectedIds) ∧
  (id ∉ selectedIds →
     toggleSelection id (toggleSelection id selectedIds) = selectedIds).
Proof.
  intros Hnodup. split; [|split; [|split]].
  - intros Hin. rewrite toggleSelection_present by done.
    split; [done|]. split.
    + rewrite list_elem_of_filter. by intros [? _].
    + destruct (list_elem_of_split _ _ Hin) as (before & after & ->).
      exists before, after. split; [done|].
      apply NoDup_app in Hnodup as (_ & Hba & Hafter).
      apply NoDup_cons in Hafter as [Hafter _].
      rewrite filter_app, filter_cons_False by (by intros H; apply H).
      rewrite !filter_ne_absent; [done|done|].
      intros Hb. apply (Hba _ Hb), list_elem_of_here.
  - apply toggleSelection_absent.
  - destruct (decide (id ∈ selectedIds)) as [Hin|Hnotin].
    + rewrite toggleSelection_present by done. by apply NoDup_filter.
    + rewrite toggleSelection_absent by done.
      apply NoDup_app. split; [done|]. split; [|apply NoDup_singleton].
      by intros x Hx ->%list_elem_of_singleton.
  - intros Hnotin. rewrite (toggleSelection_absent _ _ Hnotin).
    rewrite toggleSelection_present
      by (apply elem_of_app; right; apply list_elem_of_here).
    rewrite filter_app, filter_ne_absent by done.
    rewrite filter_cons_False by (by intros H; apply H).
    by rewrite filter_nil, app_nil_r.
Qed.

Lemma toggleSelection_spec_witness :
  NoDup [js "a"; js "b"; js "c"] ∧
  toggleSelection (js "b") [js "a"; js "b"; js "c"] = [js "a"; js "c"] ∧
  NoDup (toggleSelection (js "b") [js "a"; js "b"; js "c"]).
Proof.
  assert (NoDup [js "a"; js "b"; js "c"]) as Hnodup
    by (apply (bool_decide_unpack _); by vm_compute).
  destruct (toggleSelection_spec (js "b") _ Hnodup) as (_ & _ & Hnd & _).
  split; [exact Hnodup|]. split; [by vm_compute|exact Hnd].
Defined.

(** C8 as stated fails: the number among the photos is not dropped, an
    empty string takes its place. *)
Lemma import_keeps_placeholder_counterexample :
  ∃ e,
    format_entry (λ _, js "uuid") (λ _, js "now") 0
      (JObj [(js "text", JStr (js "hi"));
             (js "photos", JArr [JStr (js "a"); JNum 1; JStr (js "b")])])
      = Ok e ∧
    images e = [js "a"; []; js "b"] ∧
    images e ≠ string_elements [JStr (js "a"); JNum 1; JStr (js "b")].
Proof.
  eexists. split; [vm_compute; reflexivity|].
  split; [reflexivity|]. vm_compute. discriminate.
Qed.

Lemma get_obj (fields : list (jsstring * jsval)) (key : jsstring) :
  ∃ v, get (JObj fields) key = Ok v.
Proof. by eexists. Qed.

(** C8, as amended.  For every imported raw entry whose [photos] field is a
    list, normalization succeeds without any report and the entry's images
    are the photos position by position: as many images as photos, a string
    photo kept as it is, and every photo that is not a string replaced by
    the empty string. *)
Theorem import_replaces_non_string_photos
    (randomUUID nowISOString : nat → jsstring) (i : nat)
    (raw : jsval) (photos : list jsval) :
  get raw (js "photos") = Ok (JArr photos) →
  ∃ e,
    format_entry randomUUID nowISOString i raw = Ok e ∧
    length (images e) = length photos ∧
    (∀ k s, photos !! k = Some (JStr s) → images e !! k = Some s) ∧
    (∀ k p, photos !! k = Some p → (∀ s, p ≠ JStr s) →
            images e !! k = Some []).
Proof.
  intros Hphotos. destruct raw as [| | | | | |fields]; try discriminate.
  unfold format_entry. rewrite Hphotos.
  destruct (get_obj fields (js "date")) as [v1 ->].
  destruct (get_obj fields (js "creationDate")) as [v2 ->].
  destruct (get_obj fields (js "text")) as [v3 ->].
  destruct (get_obj fields (js "content")) as [v4 ->].
  destruct (get_obj fields (js "mood")) as [v5 ->].
  destruct (get_obj fields (js "tags")) as [v6 ->].
  cbn [bind import_images truthy]. eexists. split; [reflexivity|].
  cbn [images]. split; [apply length_map|]. split.
  - intros k s Hk. by rewrite list_lookup_fmap, Hk.
  - intros k p Hk Hp. rewrite list_lookup_fmap, Hk. cbn. f_equal.
    destruct p; try reflexivity. by destruct (Hp s).
Qed.

Lemma import_replaces_non_string_photos_witness :
  get (JObj [(js "text", JStr (js "hi"));
             (js "photos", JArr [JStr (js "a"); JNum 1; JStr (js "b")])])
    (js "photos")
  = Ok (JArr [JStr (js "a"); JNum 1; JStr (js "b")]) ∧
  ∃ e,
    format_entry (λ _, js "uuid") (λ _, js "now") 0
      (JObj [(js "text", JStr (js "hi"));
             (js "photos", JArr [JStr (js "a"); JNum 1; JStr (js "b")])])
      = Ok e ∧
    length (images e) = 3%nat.
Proof.
  assert (get (JObj [(js "text", JStr (js "hi"));
                     (js "photos",
                      JArr [JStr (js "a"); JNum 1; JStr (js "b")])])
            (js "photos")
          = Ok (JArr [JStr (js "a"); JNum 1; JStr (js "b")])) as Hget
    by (vm_compute; reflexivity).
  split; [exact Hget|].
  destruct (import_replaces_non_string_photos (λ _, js "uuid") (λ _, js "now")
              0 _ _ Hget) as (e & He & Hlen & _).
  exists e. split; [exact He|exact Hlen].
Defined.

(** ** services/geminiService.ts *)

Import GeminiService.

Section ServiceProperties.

Variable generateContent :
  list call → GenerateContentParameters → result GenerateContentResponse.
Variable generateVideos :
  list call → GenerateVideosParameters → result Operation.
Variable getVideosOperation : list call → Operation → result Operation.
Variable fetchObjectURL : list call → jsstring → result jsstring.
Variable JSON_parse : jsstring → result jsval.

Lemma nonempty_absent (t : option jsstring) :
  t = None ∨ t = Some [] → nonempty t = None.
Proof. by intros [->| ->]. Qed.

Lemma adds_only_ret {A} Q (a : A) : adds_only Q (ret a).
Proof. intros log. exists []. by rewrite app_nil_r. Qed.

Lemma adds_only_throw {A} Q e : adds_only Q (throw (A := A) e).
Proof. intros log. exists []. by rewrite app_nil_r. Qed.

Lemma adds_only_emit Q c : Q c → adds_only Q (emit c).
Proof. intros Hc log. exists [c]. split; [done|by constructor]. Qed.

Lemma adds_only_abind {A B} Q (m : async A) (k : A → async B) :
  adds_only Q m → (∀ a, adds_only Q (k a)) → adds_only Q (abind m k).
Proof.
  intros Hm Hk log. unfold abind.
  destruct (Hm log) as (rest1 & Hlog1 & Hrest1).
  destruct (m log) as [[[a|e]|] log1]; cbn [snd] in *; subst log1;
    [|by exists rest1..].
  destruct (Hk a (log ++ rest1)) as (rest2 & -> & Hrest2).
  exists (rest1 ++ rest2). rewrite app_assoc. split; [done|].
  by apply Forall_app.
Qed.

Lemma adds_only_poll (fuel : nat) (operation : Operation) :
  adds_only not_submission (poll getVideosOperation fuel operation).
Proof.
  revert operation. induction fuel as [|fuel IH]; intros operation;
    cbn [poll]; destruct (done operation); try apply adds_only_ret.
  - intros log. exists []. by rewrite app_nil_r.
  - apply adds_only_abind; [by apply adds_only_emit|]. intros _.
    apply adds_only_abind; [|exact IH].
    intros log. eexists [_]. split; [reflexivity|by constructor].
Qed.

(** A guarded computation that starts by submitting [p] logs that call
    first, whatever follows. *)
Lemma submission_first {B} Q (p : GenerateVideosParameters)
    (k : Operation → async B) (h : exn → async B) (log : list call) :
  (∀ operation, adds_only Q (k operation)) → (∀ e, adds_only Q (h e)) →
  ∃ rest,
    (try_catch (abind (ai_generateVideos generateVideos p) k) h log).2
    = log ++ CallGenerateVideos p :: rest ∧ Forall Q rest.
Proof.
  intros Hk Hh.
  unfold try_catch, abind, ai_generateVideos.
  destruct (generateVideos log p) as [operation|e].
  - destruct (Hk operation (log ++ [CallGenerateVideos p]))
      as (rest1 & Hlog1 & Hrest1).
    destruct (k operation (log ++ [CallGenerateVideos p]))
      as [[[b|e]|] log1]; cbn [snd] in *; subst log1;
      try (exists rest1; by rewrite <- app_assoc).
    destruct (Hh e ((log ++ [CallGenerateVideos p]) ++ rest1))
      as (rest2 & -> & Hrest2).
    exists (rest1 ++ rest2). rewrite <- !app_assoc. split; [done|].
    by apply Forall_app.
  - destruct (Hh e (log ++ [CallGenerateVideos p])) as (rest & -> & Hrest).
    exists rest. by rewrite <- app_assoc.
Qed.

End ServiceProperties.

(** C7.  Whatever the provider answers and however long the job is polled,
    [generateCinematicMemory] submits exactly one request to the
    video-synthesis provider, as its first call, and the prompt of that
    request is the original prompt when it has at most 400 characters and
    its first 400 characters otherwise. *)
Theorem video_prompt_is_capped
    (generateVideos : list call → GenerateVideosParameters → result Operation)
    (getVideosOperation : list call → Operation → result Operation)
    (fetchObjectURL : list call → jsstring → result jsstring)
    (API_KEY : jsstring) (fuel : nat)
    (prompt : jsstring) (base64Image : option jsstring) (log : list call) :
  ∃ p rest,
    (generateCinematicMemory generateVideos getVideosOperation fetchObjectURL
       API_KEY fuel prompt base64Image log).2
    = log ++ CallGenerateVideos p :: rest ∧
    Forall not_submission rest ∧
    gv_prompt p
    = (if decide (length prompt ≤ 400)%nat then prompt else take 400 prompt) ∧
    (length (gv_prompt p) ≤ 400)%nat.
Proof.
  assert (cleanPrompt prompt
          = if decide (length prompt ≤ 400)%nat then prompt
            else take 400 prompt) as Hclean.
  { unfold cleanPrompt, substring0. change (Z.to_nat 400) with 400%nat.
    repeat case_decide; (done || lia). }
  assert (length (cleanPrompt prompt) ≤ 400)%nat as Hlen.
  { rewrite Hclean. case_decide; [done|]. rewrite length_take. lia. }
  unfold generateCinematicMemory. cbv zeta.
  destruct (nonempty base64Image) as [img|];
    match goal with
    | |- context [try_catch (abind (ai_generateVideos _ ?p) ?k) ?h ?l] =>
        destruct (submission_first generateVideos not_submission p k h l)
          as (rest & Hlog & Hrest);
          [| |exists p, rest; split; [exact Hlog|]; split; [exact Hrest|];
              split; [exact Hclean|exact Hlen]]
    end.
  all: try (intros e; apply adds_only_abind;
            [by apply adds_only_emit|intros _; apply adds_only_throw]).
  all: intros operation; apply adds_only_abind;
    [apply adds_only_poll|]; intros op;
    destruct (nonempty (videoUri op)); [|apply adds_only_throw];
    intros log'; eexists [_]; (split; [reflexivity|by constructor]).
Qed.

(** C6 as stated fails for [suggestTags]: with no response text it returns
    the empty list of tags. *)
Lemma suggestTags_returns_default_counterexample :
  (run (suggestTags (λ _ _, Ok {| text := None |}) (λ _, Throw SyntaxError)
          (js "a walk") None)).1
  = Settled (Ok (JArr [])).
Proof. vm_compute. reflexivity. Qed.

(** C6, as amended.  When the provider's response text is absent or empty,
    [analyzeJournalForVideo] and [analyzeLifeProfile] throw the error
    "No response from Gemini", and [suggestTags] returns the empty list of
    tags instead of throwing. *)
Theorem empty_response_text
    (generateContent :
       list call → GenerateContentParameters → result GenerateContentResponse)
    (JSON_parse : jsstring → result jsval)
    (videoPromptHead videoPromptTail profilePromptHead profilePromptTail
       entriesText content : jsstring)
    (imageBase64 : option jsstring) (log : list call)
    (response : GenerateContentResponse) :
  text response = None ∨ text response = Some [] →
  (∀ p, generateContent log p = Ok response) →
  (analyzeJournalForVideo generateContent JSON_parse videoPromptHead
     videoPromptTail entriesText log).1
  = Settled (Throw (Error (js "No response from Gemini"))) ∧
  (analyzeLifeProfile generateContent JSON_parse profilePromptHead
     profilePromptTail entriesText log).1
  = Settled (Throw (Error (js "No response from Gemini"))) ∧
  (suggestTags generateContent JSON_parse content imageBase64 log).1
  = Settled (Ok (JArr [])).
Proof.
  intros Htext Hgc.
  unfold analyzeJournalForVideo, analyzeLifeProfile, suggestTags, abind,
    ai_generateContent.
  rewrite !Hgc, (nonempty_absent _ Htext). done.
Qed.

Lemma empty_response_text_witness :
  (run (analyzeJournalForVideo (λ _ _, Ok {| text := Some [] |})
          (λ _, Throw SyntaxError) (js "head ") (js " tail") (js "entry"))).1
  = Settled (Throw (Error (js "No response from Gemini"))).
Proof.
  exact (proj1 (empty_response_text (λ _ _, Ok {| text := Some [] |})
                  (λ _, Throw SyntaxError) (js "head ") (js " tail")
                  (js "head ") (js " tail") (js "entry") (js "entry") None []
                  {| text := Some [] |} (or_intror eq_refl) (λ _, eq_refl))).
Defined.

(** * Further properties *)

(** ** [DataView] stores and [writeString] *)

Lemma write_at_length (offset : nat) (bs view : list Z) :
  (offset + length bs ≤ length view)%nat →
  length (write_at offset bs view) = length view.
Proof.
  intros Hfit. unfold write_at.
  rewrite !length_app, length_take, length_drop. lia.
Qed.

Lemma write_at_take (offset : nat) (bs view : list Z) :
  (offset + length bs ≤ length view)%nat →
  take offset (write_at offset bs view) = take offset view.
Proof.
  intros Hfit. unfold write_at. apply take_app_length'.
  rewrite length_take. lia.
Qed.

Lemma write_at_drop (offset : nat) (bs view : list Z) :
  (offset + length bs ≤ length view)%nat →
  drop (offset + length bs) (write_at offset bs view)
  = drop (offset + length bs) view.
Proof.
  intros Hfit. unfold write_at. rewrite app_assoc.
  apply drop_app_length'. rewrite length_app, length_take. lia.
Qed.

Lemma write_at_read (offset : nat) (bs view : list Z) :
  (offset + length bs ≤ length view)%nat →
  take (length bs) (drop offset (write_at offset bs view)) = bs.
Proof.
  intros Hfit. unfold write_at.
  rewrite drop_app_length' by (rewrite length_take; lia).
  apply take_app_length.
Qed.

(** Two adjacent writes are one write. *)
Lemma write_at_adjacent (offset : nat) (bs1 bs2 view : list Z) :
  (offset + length bs1 + length bs2 ≤ length view)%nat →
  write_at (offset + length bs1) bs2 (write_at offset bs1 view)
  = write_at offset (bs1 ++ bs2) view.
Proof.
  intros Hfit. unfold write_at at 1.
  assert (take (offset + length bs1) (write_at offset bs1 view)
          = take offset view ++ bs1) as ->.
  { unfold write_at. rewrite app_assoc. apply take_app_length'.
    rewrite length_app, length_take. lia. }
  assert (drop (offset + length bs1 + length bs2) (write_at offset bs1 view)
          = drop (offset + length bs1 + length bs2) view) as ->.
  { unfold write_at. rewrite app_assoc.
    rewrite drop_app_ge by (rewrite length_app, length_take; lia).
    rewrite length_app, length_take, drop_drop. f_equal. lia. }
  unfold write_at. rewrite length_app, <- !app_assoc.
  do 4 f_equal. lia.
Qed.

Lemma insert_write_at (view : list Z) (i : nat) (x : Z) :
  (i < length view)%nat → <[i:=x]> view = write_at i [x] view.
Proof.
  intros Hi. unfold write_at. cbn [length app].
  rewrite Nat.add_1_r. by apply insert_take_drop.
Qed.

Lemma setUint8_write (view : list Z) (byteOffset : nat) (value : Q) :
  (byteOffset + 1 ≤ length view)%nat →
  setUint8 view byteOffset value = Ok (write_at byteOffset [ToUint8 value] view).
Proof.
  intros Hfit. unfold setUint8. rewrite decide_True by done.
  f_equal. apply insert_write_at. lia.
Qed.

Lemma setUint16_write (view : list Z) (byteOffset : nat) (value : Q) :
  (byteOffset + 2 ≤ length view)%nat →
  setUint16 view byteOffset value true
  = Ok (write_at byteOffset (le_bytes 2 (ToUint16 value)) view) ∧
  setUint16 view byteOffset value false
  = Ok (write_at byteOffset (rev (le_bytes 2 (ToUint16 value))) view).
Proof.
  intros Hfit. unfold setUint16. rewrite !decide_True by done.
  split; f_equal.
  all: rewrite (insert_write_at view) by lia.
  all: rewrite insert_write_at by (rewrite write_at_length; cbn; lia).
  all: rewrite (write_at_adjacent byteOffset [_] [_]) by (cbn; lia).
  all: reflexivity.
Qed.

Lemma setUint32_write (view : list Z) (byteOffset : nat) (value : Q) :
  (byteOffset + 4 ≤ length view)%nat →
  setUint32 view byteOffset value true
  = Ok (write_at byteOffset (le_bytes 4 (ToUint32 value)) view) ∧
  setUint32 view byteOffset value false
  = Ok (write_at byteOffset (rev (le_bytes 4 (ToUint32 value))) view).
Proof.
  intros Hfit. unfold setUint32. rewrite !decide_True by done.
  split; f_equal.
  all: rewrite (insert_write_at view) by lia.
  all: rewrite (insert_write_at (write_at _ _ _))
    by (rewrite write_at_length; cbn; lia).
  all: rewrite (write_at_adjacent byteOffset [_] [_]) by (cbn; lia).
  all: cbn [app].
  all: rewrite (insert_write_at (write_at _ _ _))
    by (rewrite write_at_length; cbn; lia).
  all: rewrite (write_at_adjacent byteOffset [_; _] [_]) by (cbn; lia).
  all: cbn [app].
  all: rewrite (insert_write_at (write_at _ _ _))
    by (rewrite write_at_length; cbn; lia).
  all: rewrite (write_at_adjacent byteOffset [_; _; _] [_]) by (cbn; lia).
  all: cbn [app].
  all: reflexivity.
Qed.

Lemma write_at_lookup_other (offset : nat) (bs view : list Z) (i : nat) :
  (offset + length bs ≤ length view)%nat →
  (i < offset ∨ offset + length bs ≤ i)%nat →
  write_at offset bs view !! i = view !! i.
Proof.
  intros Hfit [Hi|Hi]; unfold write_at.
  - rewrite lookup_app_l by (rewrite length_take; lia).
    by apply lookup_take_lt.
  - rewrite lookup_app_r by (rewrite length_take; lia).
    rewrite lookup_app_r by (rewrite length_take; lia).
    rewrite lookup_drop, length_take. f_equal. lia.
Qed.

Lemma le_decode_le_bytes32 (x : Z) :
  0 ≤ x < 2 ^ 32 → le_decode (le_bytes 4 x) = x.
Proof. exact (le_decode_bytes32 x). Qed.

Lemma le_decode_le_bytes16 (x : Z) :
  0 ≤ x < 2 ^ 16 → le_decode (le_bytes 2 x) = x.
Proof. exact (le_decode_bytes16 x). Qed.

(** A 32-bit store that fits the buffer succeeds, keeps the length
    of the buffer, leaves every byte outside the four at the offset as it
    was, and reads back as the value modulo 2^32: least significant byte
    first when little-endian, most significant first otherwise.  A store
    that does not fit throws a [RangeError]. *)
Lemma setUint32_read_back (view : list Z) (byteOffset : nat) (value : Q)
    (littleEndian : bool) :
  if decide (byteOffset + 4 ≤ length view)%nat then
    ∃ view',
      setUint32 view byteOffset value littleEndian = Ok view' ∧
      length view' = length view ∧
      le_decode (if littleEndian then take 4 (drop byteOffset view')
                 else rev (take 4 (drop byteOffset view'))) = ToUint32 value ∧
      (∀ i, (i < byteOffset ∨ byteOffset + 4 ≤ i)%nat →
            view' !! i = view !! i)
  else setUint32 view byteOffset value littleEndian = Throw RangeError.
Proof.
  case_decide as Hfit.
  - destruct (setUint32_write view byteOffset value Hfit) as [Hle Hbe].
    destruct littleEndian; eexists; (split; [eassumption|]).
    + split; [by apply write_at_length|]. split.
      * rewrite (write_at_read byteOffset (le_bytes 4 _)) by done.
        apply le_decode_le_bytes32, ToUint32_range.
      * intros i Hi. by apply write_at_lookup_other.
    + split; [by apply write_at_length|]. split.
      * rewrite (write_at_read byteOffset (rev (le_bytes 4 _))) by done.
        rewrite rev_involutive.
        apply le_decode_le_bytes32, ToUint32_range.
      * intros i Hi. by apply write_at_lookup_other.
  - unfold setUint32. by rewrite decide_False.
Qed.

(** The same for a 16-bit store: two bytes, the value modulo 2^16. *)
Lemma setUint16_read_back (view : list Z) (byteOffset : nat) (value : Q)
    (littleEndian : bool) :
  if decide (byteOffset + 2 ≤ length view)%nat then
    ∃ view',
      setUint16 view byteOffset value littleEndian = Ok view' ∧
      length view' = length view ∧
      le_decode (if littleEndian then take 2 (drop byteOffset view')
                 else rev (take 2 (drop byteOffset view'))) = ToUint16 value ∧
      (∀ i, (i < byteOffset ∨ byteOffset + 2 ≤ i)%nat →
            view' !! i = view !! i)
  else setUint16 view byteOffset value littleEndian = Throw RangeError.
Proof.
  case_decide as Hfit.
  - destruct (setUint16_write view byteOffset value Hfit) as [Hle Hbe].
    destruct littleEndian; eexists; (split; [eassumption|]).
    + split; [by apply write_at_length|]. split.
      * rewrite (write_at_read byteOffset (le_bytes 2 _)) by done.
        apply le_decode_le_bytes16, ToUint16_range.
      * intros i Hi. by apply write_at_lookup_other.
    + split; [by apply write_at_length|]. split.
      * rewrite (write_at_read byteOffset (rev (le_bytes 2 _))) by done.
        rewrite rev_involutive.
        apply le_decode_le_bytes16, ToUint16_range.
      * intros i Hi. by apply write_at_lookup_other.
  - unfold setUint16. by rewrite decide_False.
Qed.

Lemma writeString_from_fits (rest : jsstring) :
  ∀ i view offset,
    (offset + i + length rest ≤ length view)%nat →
    writeString_from i view offset rest
    = Ok (write_at (offset + i) (map (λ c, ToUint8 (inject_Z c)) rest) view).
Proof.
  induction rest as [|c rest IH]; intros i view offset Hfit;
    cbn [writeString_from length map] in *.
  - unfold write_at. cbn [app length]. rewrite Nat.add_0_r.
    by rewrite take_drop.
  - rewrite setUint8_write by lia. cbn [bind].
    rewrite IH by (rewrite write_at_length; cbn [length]; lia).
    f_equal.
    replace (offset + S i)%nat
      with (offset + i + length [ToUint8 (inject_Z c)])%nat by (cbn; lia).
    rewrite (write_at_adjacent (offset + i) [_]); [done|].
    rewrite length_map. cbn [length]. lia.
Qed.

Lemma writeString_from_overflow (rest : jsstring) :
  ∀ i view offset,
    rest ≠ [] → (length view < offset + i + length rest)%nat →
    writeString_from i view offset rest = Throw RangeError.
Proof.
  induction rest as [|c rest IH]; intros i view offset Hne Hover; [done|].
  cbn [writeString_from length] in *.
  destruct (decide (offset + i + 1 ≤ length view)%nat) as [Hfit|Hfit].
  - rewrite setUint8_write by done. cbn [bind]. apply IH.
    + intros ->. cbn [length] in Hover. lia.
    + rewrite write_at_length by (cbn [length]; lia). lia.
  - unfold setUint8. by rewrite decide_False.
Qed.

(** X1.  [writeString] stores the code units of the string, each reduced
    modulo 256, from the offset on and touches nothing else, provided the
    string fits the buffer; a non-empty string that does not fit throws a
    [RangeError], and the empty string is accepted at any offset. *)
Theorem writeString_spec (view : list Z) (offset : nat) (string : jsstring) :
  ((offset + length string ≤ length view)%nat →
   ∃ view',
     writeString view offset string = Ok view' ∧
     length view' = length view ∧
     take (length string) (drop offset view')
     = map (λ c, c mod 256) string ∧
     (∀ i, (i < offset ∨ offset + length string ≤ i)%nat →
           view' !! i = view !! i)) ∧
  (string ≠ [] → (length view < offset + length string)%nat →
   writeString view offset string = Throw RangeError) ∧
  (string = [] → writeString view offset string = Ok view).
Proof.
  assert (map (λ c, ToUint8 (inject_Z c)) string
          = map (λ c, c mod 256) string) as Hmap.
  { apply map_ext. intros c. unfold ToUint8. by rewrite truncate_inject_Z. }
  split; [|split].
  - intros Hfit. unfold writeString.
    rewrite writeString_from_fits by lia. rewrite Nat.add_0_r.
    assert (offset + length (map (λ c, ToUint8 (inject_Z c)) string)
            ≤ length view)%nat as Hfit' by (by rewrite length_map).
    eexists. split; [reflexivity|].
    split; [by apply write_at_length|]. split.
    + rewrite <- Hmap. rewrite <- (length_map (λ c, ToUint8 (inject_Z c))).
      by apply write_at_read.
    + intros i Hi. apply write_at_lookup_other; [done|].
      by rewrite length_map.
  - intros Hne Hover. unfold writeString.
    apply writeString_from_overflow; [done|lia].
  - by intros ->.
Qed.

Lemma writeString_spec_witness :
  (8 + length (js "WAVE") ≤ length (replicate 44 0))%nat ∧
  ∃ view',
    writeString (replicate 44 0) 8 (js "WAVE") = Ok view' ∧
    take 4 (drop 8 view') = [87; 65; 86; 69].
Proof.
  assert (8 + length (js "WAVE") ≤ length (replicate 44 0))%nat as Hfit
    by (vm_compute; lia).
  split; [exact Hfit|].
  destruct (proj1 (writeString_spec (replicate 44 0) 8 (js "WAVE")) Hfit)
    as (view' & Hw & _ & Hread & _).
  exists view'. split; [exact Hw|exact Hread].
Defined.

(** ** The decoder, further *)

Lemma b64_index_range (c n : Z) : b64_index c = Some n → is_sextet n.
Proof.
  unfold b64_index, is_sextet. cases_Z; cbn [andb]; intros [= <-]; lia.
Qed.

(** The bit buffer never holds more than its [nbits] bits, so every byte
    flushed is a byte. *)
Lemma decode_loop_bytes (data : list Z) :
  ∀ buffer nbits output,
    Forall is_sextet data →
    (nbits = 0%nat ∧ buffer = 0 ∨ nbits = 6%nat ∧ 0 ≤ buffer < 64
     ∨ nbits = 12%nat ∧ 0 ≤ buffer < 4096
     ∨ nbits = 18%nat ∧ 0 ≤ buffer < 262144) →
    Forall is_byte output →
    Forall is_byte (decode_loop data buffer nbits output).
Proof.
  unfold is_sextet, is_byte.
  induction data as [|n rest IH]; intros buffer nbits output Hdata Hbuf Hout;
    cbn [decode_loop].
  - repeat case_decide; [| |done]; apply Forall_app; (split; [done|]);
      repeat constructor; Z.div_mod_to_equations; lia.
  - apply Forall_cons in Hdata as [Hn Hrest]. case_decide.
    + apply IH; [done|auto|]. apply Forall_app. split; [done|].
      repeat constructor; Z.div_mod_to_equations; lia.
    + apply IH; [done| |done]. lia.
Qed.

Lemma mapM_b64_index_range (data : jsstring) (k : list Z) :
  mapM b64_index data = Some k → Forall is_sextet k.
Proof.
  intros Hk. apply mapM_Some_1 in Hk.
  induction Hk as [|c n l k' Hc _ IH]; constructor; [|done].
  by apply (b64_index_range c).
Qed.

Lemma atob_bytes (s : jsstring) (binaryString : jsstring) :
  atob s = Ok binaryString → Forall is_byte binaryString.
Proof.
  rewrite atob_spec. case_decide; [done|].
  destruct (mapM b64_index (significant s)) as [k|] eqn:Hk; [|done].
  intros [= <-]. apply decode_loop_bytes; [|auto|constructor].
  by apply (mapM_b64_index_range (significant s)).
Qed.

Lemma base64ToUint8Array_eq_atob (base64 : jsstring) :
  base64ToUint8Array base64 = atob base64.
Proof.
  rewrite base64ToUint8Array_atob.
  destruct (atob base64) as [s|e] eqn:Hatob; [|done]. cbn [bind]. f_equal.
  rewrite <- (list_fmap_id s) at 2. apply Forall_fmap_ext_1.
  eapply Forall_impl; [exact (atob_bytes _ _ Hatob)|].
  intros x Hx. by apply ToUint8_byte.
Qed.

(** X2.  The copy loop of [base64ToUint8Array] loses nothing: the array it
    returns is the binary string of [atob], code unit by code unit, every
    one of them a byte; and it fails exactly as [atob] does. *)
Theorem base64ToUint8Array_is_atob (base64 : jsstring) :
  base64ToUint8Array base64 = atob base64 ∧
  (∀ bytes, base64ToUint8Array base64 = Ok bytes → Forall is_byte bytes).
Proof.
  split; [apply base64ToUint8Array_eq_atob|].
  intros bytes. rewrite base64ToUint8Array_eq_atob. apply atob_bytes.
Qed.

Lemma significant_filter (s : jsstring) :
  significant (filter (λ c, is_ascii_whitespace c = false) s) = significant s.
Proof.
  unfold significant. f_equal. by apply list_filter_filter_l.
Qed.

(** X3.  ASCII whitespace is invisible to the decoder: removing all of it
    from the input, or inserting a run of it anywhere, changes neither the
    bytes returned nor whether the decoder fails. *)
Theorem decoder_ignores_whitespace (s1 ws s2 : jsstring) :
  base64ToUint8Array (filter (λ c, is_ascii_whitespace c = false) (s1 ++ s2))
  = base64ToUint8Array (s1 ++ s2) ∧
  (Forall (λ c, is_ascii_whitespace c = true) ws →
   base64ToUint8Array (s1 ++ ws ++ s2) = base64ToUint8Array (s1 ++ s2)).
Proof.
  split.
  - rewrite !base64ToUint8Array_atob, !atob_spec.
    by rewrite significant_filter.
  - intros Hws. rewrite !base64ToUint8Array_atob, !atob_spec.
    assert (significant (s1 ++ ws ++ s2) = significant (s1 ++ s2)) as ->;
      [|done].
    unfold significant. f_equal. rewrite !filter_app. do 2 f_equal.
    assert (filter (λ c, is_ascii_whitespace c = false) ws = []) as ->;
      [|done].
    induction Hws as [|c ws Hc _ IH]; [done|].
    rewrite filter_cons_False by (by rewrite Hc). exact IH.
Qed.

Lemma decoder_ignores_whitespace_witness :
  Forall (λ c, is_ascii_whitespace c = true) (js "  ") ∧
  base64ToUint8Array (js "AQID" ++ js "  " ++ js "BA==")
  = base64ToUint8Array (js "AQID" ++ js "BA==").
Proof.
  assert (Forall (λ c, is_ascii_whitespace c = true) (js "  ")) as Hws
    by (by repeat constructor).
  split; [exact Hws|].
  exact (proj2 (decoder_ignores_whitespace (js "AQID") (js "  ") (js "BA=="))
           Hws).
Defined.

Lemma remove_padding_no_pad (body : jsstring) :
  Forall (λ c, c ≠ 61) body → remove_padding body = body.
Proof.
  intros Hbody. unfold remove_padding, ends_with. case_decide; [|done].
  rewrite !bool_decide_eq_false_2; [done|..].
  - apply (pad_not_suffix body []), Hbody.
  - apply (pad_not_suffix body [61]), Hbody.
Qed.

Lemma atob_unpadded (bs : list Z) :
  Forall is_byte bs → atob (map b64_char (sextets bs)) = Ok bs.
Proof.
  intros Hbs. pose proof (sextets_range bs Hbs) as Hsx.
  rewrite atob_spec. unfold significant.
  rewrite filter_all.
  2:{ apply Forall_fmap. eapply Forall_impl; [exact Hsx|].
      intros n Hn. by apply b64_char_not_whitespace. }
  rewrite remove_padding_no_pad.
  2:{ apply Forall_fmap. eapply Forall_impl; [exact Hsx|].
      intros n Hn. by apply b64_char_not_pad. }
  rewrite decide_False.
  2:{ rewrite length_map.
      destruct (sextets_length bs) as [[-> _]|[[-> _]|[-> _]]]; lia. }
  rewrite mapM_fmap_Forall_Some.
  2:{ eapply Forall_impl; [exact Hsx|]. intros n Hn. by apply b64_index_char. }
  by rewrite decode_sextets.
Qed.

(** X4.  The padding is optional: a standard encoding is the characters
    of its six-bit groups followed by zero, one or two [=] signs, and the
    decoder returns the same bytes when those signs are left out. *)
Theorem decoder_accepts_missing_padding (b : list Z) :
  Forall is_byte b →
  rfc4648_encode b = map b64_char (sextets b) ++ padding b ∧
  (padding b = [] ∨ padding b = [61] ∨ padding b = [61; 61]) ∧
  base64ToUint8Array (map b64_char (sextets b)) = Ok b.
Proof.
  intros Hb. split; [apply encode_sextets|]. split.
  - destruct (sextets_length b) as [[_ ->]|[[_ ->]|[_ ->]]]; auto.
  - rewrite base64ToUint8Array_eq_atob. by apply atob_unpadded.
Qed.

Lemma decoder_accepts_missing_padding_witness :
  Forall is_byte [255; 239] ∧ rfc4648_encode [255; 239] = js "/+8=" ∧
  base64ToUint8Array (js "/+8") = Ok [255; 239].
Proof.
  assert (Forall is_byte [255; 239]) as Hb
    by (repeat constructor; unfold is_byte; lia).
  split; [exact Hb|]. split; [reflexivity|].
  exact (proj2 (proj2 (decoder_accepts_missing_padding _ Hb))).
Defined.

(** *** Decoding in pieces *)

Lemma decode_loop_output (data : list Z) :
  ∀ buffer nbits output,
    decode_loop data buffer nbits output
    = output ++ decode_loop data buffer nbits [].
Proof.
  induction data as [|n rest IH]; intros buffer nbits output;
    cbn [decode_loop].
  - repeat case_decide; by rewrite ?app_nil_r.
  - case_decide.
    + rewrite IH, (IH _ _ ([] ++ _)). by rewrite app_assoc.
    + apply IH.
Qed.

Lemma decode_loop_groups (n : nat) :
  ∀ k1 k2 output,
    length k1 = (4 * n)%nat →
    decode_loop (k1 ++ k2) 0 0 output
    = decode_loop k2 0 0 (decode_loop k1 0 0 output).
Proof.
  induction n as [|n IH]; intros k1 k2 output Hlen.
  - destruct k1; [|done]. reflexivity.
  - destruct k1 as [|s1 [|s2 [|s3 [|s4 k1]]]]; cbn [length] in Hlen; try lia.
    cbn [app]. rewrite !decode_loop_group. cbv zeta. apply IH. lia.
Qed.

Lemma mapM_b64_index_app (l1 l2 : jsstring) :
  mapM b64_index (l1 ++ l2) =
  match mapM b64_index l1, mapM b64_index l2 with
  | Some k1, Some k2 => Some (k1 ++ k2)
  | _, _ => None
  end.
Proof.
  induction l1 as [|c l1 IH]; cbn.
  - by destruct (mapM b64_index l2).
  - destruct (b64_index c); cbn; [|done]. rewrite IH.
    by destruct (mapM b64_index l1), (mapM b64_index l2).
Qed.

Lemma suffix_of_app_short {A} (suf l1 l2 : list A) :
  suf `suffix_of` l1 ++ l2 → (length suf ≤ length l2)%nat →
  suf `suffix_of` l2.
Proof.
  intros [k Hk] Hlen.
  remember (length l2 - length suf)%nat as n eqn:Hn.
  rewrite <- (take_drop n l2), app_assoc in Hk.
  apply app_inj_2 in Hk as [_ Hk]; [|rewrite length_drop; lia].
  exists (take n l2). by rewrite <- Hk, take_drop.
Qed.

Lemma b64_index_not_special (c : Z) :
  is_Some (b64_index c) → is_ascii_whitespace c = false ∧ c ≠ 61.
Proof.
  intros [n Hn]. revert Hn. unfold b64_index.
  cases_Z; cbn [andb]; intros; try discriminate;
    (split; [|lia]); unfold is_ascii_whitespace;
    repeat (rewrite (proj2 (Z.eqb_neq _ _)) by lia); reflexivity.
Qed.

(** What the decoder keeps of an input that starts with whole groups of
    four alphabet characters: those groups, then what it keeps of the
    rest. *)
Lemma significant_app (s1 s2 : jsstring) :
  Forall (λ c, is_Some (b64_index c)) s1 → (length s1 mod 4 = 0)%nat →
  significant (s1 ++ s2) = s1 ++ significant s2.
Proof.
  intros Hs1 Hlen. unfold significant. rewrite filter_app, filter_all.
  2:{ eapply Forall_impl; [exact Hs1|]. intros c Hc.
      by apply b64_index_not_special. }
  set (d := filter (λ c, is_ascii_whitespace c = false) s2).
  assert (Forall (λ c, c ≠ 61) s1) as Hno61.
  { eapply Forall_impl; [exact Hs1|]. intros c Hc.
    by apply b64_index_not_special. }
  assert (∀ suf, suf ≠ [] → (length suf ≤ 2)%nat → Forall (λ c, c = 61) suf →
            (length d mod 4 = 0)%nat →
            (suf `suffix_of` s1 ++ d ↔ suf `suffix_of` d)) as Hsuf.
  { intros suf Hne Hsl H61 Hd. split; [|apply suffix_app_r].
    intros Hs. destruct d as [|x d'] eqn:Hdeq.
    - rewrite app_nil_r in Hs. destruct Hs as [k ->].
      apply Forall_app in Hno61 as [_ Hno61].
      destruct suf as [|y suf]; [done|].
      apply Forall_cons in H61 as [-> _].
      by apply Forall_cons in Hno61 as [? _].
    - apply (suffix_of_app_short _ s1); [done|].
      assert (4 ≤ length (x :: d'))%nat; [|lia].
      cbn [length] in *.
      destruct (length d') as [|[|[|?]]]; cbn in Hd; try discriminate; lia. }
  unfold remove_padding, ends_with.
  rewrite length_app.
  assert ((length s1 + length d) mod 4 = length d mod 4)%nat as ->
    by (by rewrite Nat.Div0.add_mod, Hlen, Nat.add_0_l, Nat.Div0.mod_mod).
  case_decide as Hd; [|done].
  assert ([61; 61] `suffix_of` s1 ++ d ↔ [61; 61] `suffix_of` d) as H2
    by (apply Hsuf; [done|cbn; lia|by repeat constructor|done]).
  assert ([61] `suffix_of` s1 ++ d ↔ [61] `suffix_of` d) as H1
    by (apply Hsuf; [done|cbn; lia|by repeat constructor|done]).
  rewrite (bool_decide_ext _ _ H2), (bool_decide_ext _ _ H1).
  repeat case_bool_decide; try done.
  - destruct H as [k ->]. rewrite !length_app. cbn [length].
    replace (length s1 + (length k + 2) - 2)%nat
      with (length s1 + length k)%nat by lia.
    replace (length k + 2 - 2)%nat with (length k) by lia.
    by rewrite take_app_add, take_app_length.
  - destruct H0 as [k ->]. rewrite !length_app. cbn [length].
    replace (length s1 + (length k + 1) - 1)%nat
      with (length s1 + length k)%nat by lia.
    replace (length k + 1 - 1)%nat with (length k) by lia.
    by rewrite take_app_add, take_app_length.
Qed.

Lemma mapM_b64_index_total (s : jsstring) :
  Forall (λ c, is_Some (b64_index c)) s → is_Some (mapM b64_index s).
Proof.
  induction 1 as [|c l [n Hn] _ [k Hk]]; [by eexists|].
  exists (n :: k). cbn. by rewrite Hn, Hk.
Qed.

(** X5.  Decoding distributes over concatenation at a group boundary: when
    the first part is made of alphabet characters only and its length is a
    multiple of four, it decodes on its own, and the whole input decodes to
    its bytes followed by the bytes of the second part, failing exactly
    when the second part fails. *)
Theorem decoder_concatenation (s1 s2 : jsstring) :
  Forall (λ c, is_Some (b64_index c)) s1 → (length s1 mod 4 = 0)%nat →
  ∃ b1,
    base64ToUint8Array s1 = Ok b1 ∧
    base64ToUint8Array (s1 ++ s2)
    = (b2 <-- base64ToUint8Array s2 ;; Ok (b1 ++ b2)).
Proof.
  intros Hs1 Hlen.
  destruct (mapM_b64_index_total s1 Hs1) as [k1 Hk1].
  pose proof (length_mapM _ _ _ Hk1) as Hlen1.
  assert (significant s1 = s1) as Hsig1.
  { rewrite <- (app_nil_r s1) at 1. rewrite significant_app by done.
    apply app_nil_r. }
  exists (decode_loop k1 0 0 []).
  rewrite !base64ToUint8Array_eq_atob, !atob_spec, Hsig1.
  rewrite significant_app by done. split.
  - rewrite decide_False by lia. by rewrite Hk1.
  - rewrite length_app.
    assert ((length s1 + length (significant s2)) mod 4
            = length (significant s2) mod 4)%nat as ->
      by (by rewrite Nat.Div0.add_mod, Hlen, Nat.add_0_l, Nat.Div0.mod_mod).
    case_decide; [done|].
    rewrite mapM_b64_index_app, Hk1.
    destruct (mapM b64_index (significant s2)) as [k2|]; [|done].
    cbn [bind]. f_equal.
    rewrite (decode_loop_groups (length k1 / 4)).
    + apply decode_loop_output.
    + rewrite <- Hlen1.
      rewrite (Nat.div_mod_eq (length s1) 4) at 1. lia.
Qed.

Lemma decoder_concatenation_witness :
  Forall (λ c, is_Some (b64_index c)) (js "AQID") ∧
  (length (js "AQID") mod 4 = 0)%nat ∧
  ∃ b1,
    base64ToUint8Array (js "AQID") = Ok b1 ∧
    base64ToUint8Array (js "AQID" ++ js "BA==")
    = (b2 <-- base64ToUint8Array (js "BA==") ;; Ok (b1 ++ b2)).
Proof.
  assert (Forall (λ c, is_Some (b64_index c)) (js "AQID")) as Hs1
    by (repeat constructor; by eexists).
  split; [exact Hs1|]. split; [reflexivity|].
  exact (decoder_concatenation (js "AQID") (js "BA==") Hs1 eq_refl).
Defined.

(** ** The whole conversion *)

Lemma field_app (h rest : list Z) (offset size : nat) :
  (offset + size ≤ length h)%nat →
  field (h ++ rest) offset size = field h offset size.
Proof.
  intros Hfit. unfold field. f_equal.
  rewrite drop_app_le by lia. apply take_app_le.
  rewrite length_drop. lia.
Qed.

Lemma base64ToUint8Array_encode (b : list Z) :
  Forall is_byte b → base64ToUint8Array (rfc4648_encode b) = Ok b.
Proof.
  intros Hb. rewrite base64ToUint8Array_eq_atob. by apply atob_encode.
Qed.

(** X6.  End to end: for every byte sequence [b] and every integer sample
    rate below 2^31, the blob made from the standard encoding of [b] is a
    44-byte header followed by [b], and the header declares one channel,
    16 bits per sample, that sample rate, a byte rate of twice the sample
    rate and a block align of 2; its two length fields are right as long as
    36 + len(b) is below 2^32.  Without a sample rate the header says
    24000. *)
Theorem pcmToWavBlob_end_to_end (b : list Z) (sampleRate : option Z) :
  Forall is_byte b →
  0 ≤ default 24000 sampleRate < 2 ^ 31 →
  ∃ blob,
    pcmToWavBlob (rfc4648_encode b) (inject_Z <$> sampleRate) = Ok blob ∧
    blobType blob = js "audio/wav" ∧
    length (blob_bytes blob) = (44 + length b)%nat ∧
    drop 44 (blob_bytes blob) = b ∧
    field (blob_bytes blob) 22 2 = 1 ∧
    field (blob_bytes blob) 24 4 = default 24000 sampleRate ∧
    field (blob_bytes blob) 28 4 = 2 * default 24000 sampleRate ∧
    field (blob_bytes blob) 32 2 = 2 ∧
    field (blob_bytes blob) 34 2 = 16 ∧
    (36 + Z.of_nat (length b) < 2 ^ 32 →
     field (blob_bytes blob) 4 4 = 36 + Z.of_nat (length b) ∧
     field (blob_bytes blob) 40 4 = Z.of_nat (length b)).
Proof.
  intros Hb Hsr. unfold pcmToWavBlob.
  rewrite base64ToUint8Array_encode by done. cbn [bind].
  assert (default 24000%Q (inject_Z <$> sampleRate)
          = inject_Z (default 24000 sampleRate)) as ->
    by (by destruct sampleRate).
  set (sr := default 24000 sampleRate) in *.
  destruct (createWavHeader_total (inject_Z (Z.of_nat (length b)))
              (inject_Z sr) 1%Q 16%Q) as (h & -> & Hh).
  cbn [bind]. eexists. split; [reflexivity|].
  destruct Hh. unfold blob_bytes. cbn [blobParts blobType concat].
  rewrite app_nil_r. split; [done|].
  split; [by rewrite length_app, hdr_length0|].
  split; [by rewrite <- hdr_length0, drop_app_length|].
  rewrite !field_app by (rewrite hdr_length0; lia).
  split; [by rewrite hdr_channels0|].
  split; [rewrite hdr_sample_rate0, ToUint32_inject_Z;
          apply Z.mod_small; lia|].
  split.
  { rewrite hdr_byte_rate0. apply ToUint32_integer; [|lia].
    unfold Qeq. cbn. lia. }
  split; [by rewrite hdr_block_align0|].
  split; [by rewrite hdr_bits0|].
  intros Hlen. split.
  - rewrite hdr_chunk_size0. unfold ToUint32.
    rewrite truncate_riff_length. apply Z.mod_small. lia.
  - rewrite hdr_data_size0, ToUint32_inject_Z. apply Z.mod_small. lia.
Qed.

Lemma pcmToWavBlob_end_to_end_witness :
  Forall is_byte [1; 2; 3; 4] ∧ 0 ≤ default 24000 (Some 16000) < 2 ^ 31 ∧
  ∃ blob,
    pcmToWavBlob (rfc4648_encode [1; 2; 3; 4]) (Some (inject_Z 16000))
      = Ok blob ∧
    drop 44 (blob_bytes blob) = [1; 2; 3; 4] ∧
    field (blob_bytes blob) 28 4 = 32000.
Proof.
  assert (Forall is_byte [1; 2; 3; 4]) as Hb
    by (repeat constructor; unfold is_byte; lia).
  assert (0 ≤ default 24000 (Some 16000) < 2 ^ 31) as Hsr by (cbn; lia).
  split; [exact Hb|]. split; [exact Hsr|].
  destruct (pcmToWavBlob_end_to_end [1; 2; 3; 4] (Some 16000) Hb Hsr)
    as (blob & Hblob & _ & _ & Hdrop & _ & _ & Hrate & _).
  exists blob. split; [exact Hblob|]. split; [exact Hdrop|exact Hrate].
Defined.

(** X7.  The byte rate is the sample rate times the block align, as the
    comment in the code says, whenever the sample rate, the block align and
    their product fit their fields. *)
Theorem byte_rate_is_rate_times_align (n sr ch bits blockAlign : Z) :
  0 ≤ sr < 2 ^ 32 →
  (inject_Z ch * (inject_Z bits / 8) == inject_Z blockAlign)%Q →
  0 ≤ blockAlign < 2 ^ 16 →
  sr * blockAlign < 2 ^ 32 →
  ∃ h,
    createWavHeader (inject_Z n) (inject_Z sr) (inject_Z ch) (inject_Z bits)
      = Ok h ∧
    field h 28 4 = field h 24 4 * field h 32 2.
Proof.
  intros Hsr Hba Hbar Hprod.
  destruct (createWavHeader_total (inject_Z n) (inject_Z sr) (inject_Z ch)
              (inject_Z bits)) as (h & Hh & []).
  exists h. split; [exact Hh|].
  rewrite hdr_byte_rate0, hdr_sample_rate0, hdr_block_align0.
  rewrite ToUint32_inject_Z, (Z.mod_small sr) by done.
  rewrite (ToUint16_integer _ blockAlign) by done.
  apply ToUint32_integer; [|nia].
  by rewrite inject_Z_mult, <- Hba, Qmult_assoc.
Qed.

Lemma byte_rate_is_rate_times_align_witness :
  ∃ h,
    createWavHeader (inject_Z 1000) (inject_Z 44100) (inject_Z 2)
      (inject_Z 24) = Ok h ∧
    field h 28 4 = field h 24 4 * field h 32 2.
Proof.
  apply (byte_rate_is_rate_times_align 1000 44100 2 24 6);
    [lia | reflexivity | lia | lia].
Defined.

(** ** App.tsx: import, further *)

Section ImportProperties.

Variable randomUUID nowISOString : nat → jsstring.
Variable JSON_parse : jsstring → result jsval.

Lemma format_entry_importable (i : nat) (raw : jsval) :
  importable raw = true →
  ∃ e, format_entry randomUUID nowISOString i raw = Ok e ∧ id e = randomUUID i.
Proof.
  unfold importable, format_entry.
  destruct raw as [| | | | | |fields]; try done; cbn [get bind].
  1-4: intros _; unfold import_images; cbn [truthy bind];
       eexists; split; reflexivity.
  destruct (default JUndefined (obj_lookup fields (js "photos")))
    as [| |b|q|s|items|fs] eqn:Hp; unfold import_images;
    intros Htruthy%negb_true_iff || intros _; rewrite ?Htruthy;
    cbn [truthy bind]; eexists; split; reflexivity.
Qed.

Lemma format_entry_not_importable (i : nat) (raw : jsval) :
  importable raw = false →
  format_entry randomUUID nowISOString i raw = Throw TypeError.
Proof.
  unfold importable, format_entry.
  destruct raw as [| | | | | |fields]; try done; cbn [get bind].
  destruct (default JUndefined (obj_lookup fields (js "photos")))
    as [| |b|q|s|items|fs] eqn:Hp; unfold import_images; try done;
    intros ->%negb_false_iff; reflexivity.
Qed.

Lemma format_entries_ok (raws : list jsval) :
  ∀ i, Forall (λ raw, importable raw = true) raws →
    ∃ fs,
      format_entries randomUUID nowISOString i raws = Ok fs ∧
      length fs = length raws ∧
      ∀ k e, fs !! k = Some e → id e = randomUUID (i + k).
Proof.
  induction raws as [|raw raws IH]; intros i Hall; cbn [format_entries].
  - exists []. by split; [|split].
  - apply Forall_cons in Hall as [Hraw Hall].
    destruct (format_entry_importable i raw Hraw) as (e & -> & He).
    destruct (IH (S i) Hall) as (fs & -> & Hlen & Hids). cbn [bind].
    exists (e :: fs). split; [done|]. split; [by cbn; rewrite Hlen|].
    intros [|k] e' Hk; cbn in Hk.
    + injection Hk as <-. by rewrite Nat.add_0_r.
    + rewrite (Hids k e' Hk). f_equal. lia.
Qed.

Lemma format_entries_fail (raws : list jsval) :
  ∀ i, Exists (λ raw, importable raw = false) raws →
    format_entries randomUUID nowISOString i raws = Throw TypeError.
Proof.
  induction raws as [|raw raws IH]; intros i Hex; cbn [format_entries].
  - by apply Exists_nil in Hex.
  - destruct (importable raw) eqn:Hraw.
    + destruct (format_entry_importable i raw Hraw) as (e & -> & _).
      cbn [bind]. rewrite IH; [done|].
      apply Exists_cons in Hex as [Hex|Hex]; [congruence|done].
    + by rewrite format_entry_not_importable.
Qed.

Lemma formatted_list (json : jsval) (raws : list jsval) :
  json = JArr raws
  ∨ (∃ fields, json = JObj fields
               ∧ obj_lookup fields (js "entries") = Some (JArr raws)) →
  formatted randomUUID nowISOString json
  = format_entries randomUUID nowISOString 0 raws.
Proof.
  intros [->|(fields & -> & Hentries)]; unfold formatted; [done|].
  cbn [get bind]. by rewrite Hentries.
Qed.

End ImportProperties.

(** X8.  An import is all or nothing.  When the file holds a list of raw
    entries, at top level or under [entries], and every one of them is
    acceptable (not [null], and with [photos] absent, falsy or a list), the
    import appends exactly one entry per raw entry after the existing ones,
    in order, each with its own fresh identifier, and reports their number;
    when a single one is not acceptable, no entry is added and the failure
    alert is shown. *)
Theorem import_all_or_nothing
    (randomUUID nowISOString : nat → jsstring)
    (JSON_parse : jsstring → result jsval)
    (fileText : jsstring) (prev : list JournalEntry)
    (json : jsval) (raws : list jsval) :
  JSON_parse fileText = Ok json →
  json = JArr raws
  ∨ (∃ fields, json = JObj fields
               ∧ obj_lookup fields (js "entries") = Some (JArr raws)) →
  (Forall (λ raw, importable raw = true) raws →
   ∃ fs,
     handleImport randomUUID nowISOString JSON_parse fileText prev
     = (prev ++ fs, SuccessfullyImported (length raws)) ∧
     length fs = length raws ∧
     (∀ k e, fs !! k = Some e → id e = randomUUID k)) ∧
  (Exists (λ raw, importable raw = false) raws →
   handleImport randomUUID nowISOString JSON_parse fileText prev
   = (prev, FailedToParse)).
Proof.
  intros Hparse Hjson. unfold handleImport. rewrite Hparse. cbn [bind].
  rewrite (formatted_list _ _ json raws Hjson). split.
  - intros Hall.
    destruct (format_entries_ok randomUUID nowISOString raws 0 Hall)
      as (fs & -> & Hlen & Hids).
    exists fs. rewrite Hlen. by split; [|split].
  - intros Hex. by rewrite format_entries_fail.
Qed.

Lemma import_all_or_nothing_witness :
  ∃ fs,
    handleImport (λ i, [Z.of_nat i]) (λ _, js "now")
      (λ _, Ok (JArr [JObj [(js "text", JStr (js "a"))]; JStr (js "b")]))
      (js "file") []
    = ([] ++ fs, SuccessfullyImported 2) ∧ length fs = 2%nat.
Proof.
  destruct (proj1 (import_all_or_nothing (λ i, [Z.of_nat i]) (λ _, js "now")
              (λ _, Ok (JArr [JObj [(js "text", JStr (js "a"))];
                              JStr (js "b")]))
              (js "file") [] _ _ eq_refl (or_introl eq_refl)))
    as (fs & Hfs & Hlen & _).
  { by repeat constructor. }
  exists fs. split; [exact Hfs|exact Hlen].
Defined.

(** X9.  A file that does not hold a list.  A text that does not parse,
    and the JSON value [null], change nothing and raise the failure alert.
    Any other value that is not a list and whose [entries] is absent or
    falsy (a number, a string, a boolean, an object without entries) also
    changes nothing but is reported as a successful import of 0 entries.  A
    truthy [entries] that is not a list raises the failure alert. *)
Theorem import_without_list
    (randomUUID nowISOString : nat → jsstring)
    (JSON_parse : jsstring → result jsval)
    (fileText : jsstring) (prev : list JournalEntry) :
  (∀ e, JSON_parse fileText = Throw e →
        handleImport randomUUID nowISOString JSON_parse fileText prev
        = (prev, FailedToParse)) ∧
  (JSON_parse fileText = Ok JNull →
   handleImport randomUUID nowISOString JSON_parse fileText prev
   = (prev, FailedToParse)) ∧
  (∀ json entries,
     JSON_parse fileText = Ok json → (∀ raws, json ≠ JArr raws) →
     get json (js "entries") = Ok entries →
     (truthy entries = false →
      handleImport randomUUID nowISOString JSON_parse fileText prev
      = (prev, SuccessfullyImported 0)) ∧
     (truthy entries = true → (∀ raws, entries ≠ JArr raws) →
      handleImport randomUUID nowISOString JSON_parse fileText prev
      = (prev, FailedToParse))).
Proof.
  split; [|split].
  - intros e He. unfold handleImport. by rewrite He.
  - intros He. unfold handleImport. by rewrite He.
  - intros json entries Hparse Hnotlist Hget. unfold handleImport.
    rewrite Hparse. cbn [bind]. unfold formatted.
    assert ((match json with
             | JArr _ => Ok json
             | _ => entries <-- get json (js "entries") ;;
                    Ok (js_or entries (JArr []))
             end) = Ok (js_or entries (JArr []))) as ->.
    { destruct json; try (by rewrite Hget). by destruct (Hnotlist items). }
    cbn [bind]. unfold js_or. split.
    + intros ->. cbn [format_entries]. by rewrite app_nil_r.
    + intros -> Hnot. destruct entries; try done.
      by destruct (Hnot items).
Qed.

Lemma import_without_list_witness :
  handleImport (λ i, [Z.of_nat i]) (λ _, js "now")
    (λ _, Ok (JObj [(js "version", JNum 1)])) (js "file") []
  = ([], SuccessfullyImported 0).
Proof.
  refine (proj1 (proj2 (proj2 (import_without_list (λ i, [Z.of_nat i])
            (λ _, js "now") (λ _, Ok (JObj [(js "version", JNum 1)]))
            (js "file") [])) _ JUndefined eq_refl _ eq_refl) eq_refl).
  intros raws. discriminate.
Defined.

Lemma js_or_chain (a b c : jsval) :
  js_or (js_or a b) c
  = if truthy a then a else if truthy b then b else c.
Proof.
  unfold js_or. destruct (truthy a) eqn:Ha; [by rewrite Ha|].
  by destruct (truthy b) eqn:Hb; rewrite ?Hb.
Qed.

(** X10.  The aliases of an imported entry, in the order the code tries
    them: the content is [text] when truthy, else [content] when truthy,
    else the empty string; the date is [date], else [creationDate], else the
    current time; the tags default to the empty list; the mood is taken as
    it is; the identifier is always a fresh one, never the file's. *)
Theorem import_alias_precedence
    (randomUUID nowISOString : nat → jsstring) (i : nat)
    (fields : list (jsstring * jsval)) (e : JournalEntry) :
  format_entry randomUUID nowISOString i (JObj fields) = Ok e →
  id e = randomUUID i ∧
  content e
  = (if truthy (default JUndefined (obj_lookup fields (js "text")))
     then default JUndefined (obj_lookup fields (js "text"))
     else if truthy (default JUndefined (obj_lookup fields (js "content")))
     then default JUndefined (obj_lookup fields (js "content"))
     else JStr []) ∧
  date e
  = (if truthy (default JUndefined (obj_lookup fields (js "date")))
     then default JUndefined (obj_lookup fields (js "date"))
     else if truthy
               (default JUndefined (obj_lookup fields (js "creationDate")))
     then default JUndefined (obj_lookup fields (js "creationDate"))
     else JStr (nowISOString i)) ∧
  tags e
  = (if truthy (default JUndefined (obj_lookup fields (js "tags")))
     then default JUndefined (obj_lookup fields (js "tags"))
     else JArr []) ∧
  mood e = default JUndefined (obj_lookup fields (js "mood")).
Proof.
  unfold format_entry. cbn [get bind].
  destruct (import_images _) as [imgs|err]; [|done]. cbn [bind].
  intros [= <-]. cbn [id content date tags mood].
  by rewrite !js_or_chain.
Qed.

Lemma import_alias_precedence_witness :
  ∃ e,
    format_entry (λ _, js "uuid") (λ _, js "now") 0
      (JObj [(js "id", JStr (js "x")); (js "content", JStr (js "c"));
             (js "text", JStr (js "t"))]) = Ok e ∧
    id e = js "uuid" ∧ content e = JStr (js "t").
Proof.
  eexists. split; [vm_compute; reflexivity|].
  destruct (import_alias_precedence (λ _, js "uuid") (λ _, js "now") 0
              [(js "id", JStr (js "x")); (js "content", JStr (js "c"));
               (js "text", JStr (js "t"))] _ eq_refl) as (Hid & Hc & _).
  split; [exact Hid|exact Hc].
Defined.

(** ** App.tsx: the selection and the views *)

Import AppShell.

Lemma elem_of_toggleSelection (x i : jsstring) (l : list jsstring) :
  x ∈ App.toggleSelection i l ↔ (x ≠ i ∧ x ∈ l) ∨ (x = i ∧ i ∉ l).
Proof.
  destruct (decide (i ∈ l)) as [Hin|Hnotin].
  - rewrite toggleSelection_present by done. rewrite list_elem_of_filter.
    split; [auto|]. intros [?|[-> ?]]; done.
  - rewrite toggleSelection_absent by done.
    rewrite elem_of_app, list_elem_of_singleton. split.
    + intros [Hx| ->]; [left|by right]. split; [|done]. by intros ->.
    + intros [[_ ?]|[-> _]]; auto.
Qed.

Lemma toggleSelection_NoDup (i : jsstring) (l : list jsstring) :
  NoDup l → NoDup (App.toggleSelection i l).
Proof.
  intros Hnodup. destruct (decide (i ∈ l)) as [Hin|Hnotin].
  - rewrite toggleSelection_present by done. by apply NoDup_filter.
  - rewrite toggleSelection_absent by done.
    apply NoDup_app. split; [done|]. split; [|apply NoDup_singleton].
    by intros x Hx ->%list_elem_of_singleton.
Qed.

(** X11.  The entries handed to the video generator are the selected ones
    in the order of the journal, whatever the order of the clicks; and
    toggling an identifier flips the membership of the entries that carry it
    and of no other entry. *)
Theorem selection_follows_toggles (st : AppState) (i : jsstring) :
  getSelectedEntries st `sublist_of` entries st ∧
  (∀ e, e ∈ getSelectedEntries st
        ↔ e ∈ entries st ∧ id e ∈ selectedIds st) ∧
  (∀ e, id e = i →
        (e ∈ getSelectedEntries (toggleSelection i st)
         ↔ e ∈ entries st ∧ e ∉ getSelectedEntries st)) ∧
  (∀ e, id e ≠ i →
        (e ∈ getSelectedEntries (toggleSelection i st)
         ↔ e ∈ getSelectedEntries st)).
Proof.
  unfold getSelectedEntries, toggleSelection. cbn [entries selectedIds setSelectedIds].
  split; [apply sublist_filter|]. split; [|split].
  - intros e. rewrite list_elem_of_filter. tauto.
  - intros e <-. rewrite !list_elem_of_filter, elem_of_toggleSelection. tauto.
  - intros e Hne. rewrite !list_elem_of_filter, elem_of_toggleSelection. tauto.
Qed.

Section Invariants.

Variable JSON_parse : jsstring → result jsval.

Lemma handleImport_extends (randomUUID nowISOString : nat → jsstring)
    (fileText : jsstring) (prev : list JournalEntry) :
  ∃ fs, (handleImport randomUUID nowISOString JSON_parse fileText prev).1
        = prev ++ fs.
Proof.
  unfold handleImport. destruct (bind _ _) as [fs|e].
  - by exists fs.
  - exists []. by rewrite app_nil_r.
Qed.

Lemma invariant_initial (saved : list JournalEntry) :
  invariant (initial saved).
Proof.
  unfold invariant. cbn. split; [constructor|].
  split; [by intros i ?%elem_of_nil|]. by repeat split.
Qed.

Lemma invariant_step (st : AppState) (ev : event) :
  invariant st → enabled st ev → invariant (handle JSON_parse ev st).
Proof.
  intros (Hnodup & Hsub & Hmode & Hmtv & Hview) Hen. unfold invariant.
  destruct ev; cbn [handle enabled] in *.
  - cbn. split; [constructor|]. split; [by intros i ?%elem_of_nil|].
    by repeat split.
  - cbn. by repeat split.
  - cbn. by repeat split.
  - cbn. by repeat split.
  - cbn. by repeat split.
  - unfold handleImportLoaded.
    destruct (handleImport_extends randomUUID nowISOString fileText
                (entries st)) as (fs & Hfs).
    destruct (handleImport _ _ _ _ _) as [es []]; cbn [fst] in Hfs;
      [|by repeat split].
    subst es. cbn. split; [done|]. split; [|by repeat split].
    intros i Hi. destruct (Hsub i Hi) as (e & He & Hid).
    exists e. split; [|done]. apply elem_of_app. by left.
  - cbn. split; [done|]. split; [|by repeat split].
    intros i Hi. destruct (Hsub i Hi) as (e & He & Hid).
    exists e. split; [|done]. by apply list_elem_of_further.
  - cbn. by repeat split.
  - unfold toggleSelectionMode.
    destruct (isSelectionMode st) eqn:Hm; cbn.
    + split; [constructor|]. split; [by intros i ?%elem_of_nil|].
      repeat split; try done; try congruence.
    + repeat split; try done; try congruence.
  - assert (startMtvMode st = st
            ∨ startMtvMode st = setView MTV st ∧ selectedIds st ≠ [])
      as [->|[-> Hsel]].
    { unfold startMtvMode. destruct (selectedIds st); [by left|by right]. }
    + by repeat split.
    + cbn. by repeat split.
  - destruct Hen as [Hv Hentry]. unfold handleCardClick.
    destruct (isSelectionMode st) eqn:Hm; cbn.
    + split; [by apply toggleSelection_NoDup|]. split.
      * intros i [[_ Hi]|[-> _]]%elem_of_toggleSelection; [by apply Hsub|].
        by exists entry.
      * repeat split; try done; try congruence.
    + repeat split; auto; try done.
Qed.

Lemma reachable_invariant (st : AppState) :
  reachable JSON_parse st → invariant st.
Proof.
  induction 1 as [saved|st ev _ IH Hen].
  - apply invariant_initial.
  - by apply invariant_step.
Qed.

End Invariants.

(** X12.  In every state the application can reach, the selection has no
    duplicate, every selected identifier is the identifier of an entry of
    the journal, the selection is empty outside selection mode, and the
    memory-reel view is only ever shown with at least one selected entry to
    work on (so the generator's guard against an empty list never fires). *)
Theorem selection_invariants (JSON_parse : jsstring → result jsval)
    (st : AppState) :
  reachable JSON_parse st →
  NoDup (selectedIds st) ∧
  (∀ i, i ∈ selectedIds st → ∃ e, e ∈ entries st ∧ id e = i) ∧
  (isSelectionMode st = false → selectedIds st = []) ∧
  (view st = MTV → getSelectedEntries st ≠ []).
Proof.
  intros Hreach.
  destruct (reachable_invariant JSON_parse st Hreach)
    as (Hnodup & Hsub & Hmode & Hmtv & _).
  split; [done|]. split; [done|]. split; [done|].
  intros Hview Hempty. specialize (Hmtv Hview).
  destruct (selectedIds st) as [|i ids] eqn:Hsel; [done|].
  destruct (Hsub i) as (e & He & Hid); [apply list_elem_of_here|].
  assert (e ∈ getSelectedEntries st) as Hin.
  { unfold getSelectedEntries. apply list_elem_of_filter. split; [|done].
    rewrite Hsel, Hid. apply list_elem_of_here. }
  rewrite Hempty in Hin. by apply elem_of_nil in Hin.
Qed.

Lemma selection_invariants_witness :
  ∃ st,
    reachable (λ _, Throw SyntaxError) st ∧ view st = MTV ∧
    getSelectedEntries st ≠ [].
Proof.
  pose (e := {| id := js "e1"; date := JStr (js "2024-01-01");
                content := JStr (js "hello"); images := [];
                mood := JUndefined; tags := JArr [] |}).
  pose (JP := (λ _ : jsstring, Throw SyntaxError) : jsstring → result jsval).
  assert (reachable JP
            (handle JP ClickGenerateMtv
               (handle JP (ClickCard e)
                  (handle JP ClickSelectMultiple (initial [e]))))) as Hreach.
  { apply reachable_step; [apply reachable_step; [apply reachable_step|]|].
    - apply reachable_initial.
    - reflexivity.
    - split; [reflexivity|]. apply list_elem_of_here.
    - split; reflexivity. }
  eexists. split; [exact Hreach|]. split; [reflexivity|].
  exact (proj2 (proj2 (proj2 (selection_invariants JP _ Hreach))) eq_refl).
Defined.

(** ** services/geminiService.ts, further *)

Section ServiceFurther.

Variable generateVideos :
  list call → GenerateVideosParameters → result Operation.
Variable getVideosOperation : list call → Operation → result Operation.
Variable fetchObjectURL : list call → jsstring → result jsstring.
Variable API_KEY : jsstring.

(** The polls of one run: each is made on an unfinished operation after a
    five-second wait, the loop ends on the first finished one, and only a
    run that is out of fuel is still pending. *)
Lemma poll_shape (fuel : nat) :
  ∀ operation log,
    ∃ polls,
      (poll getVideosOperation fuel operation log).2
      = log ++ poll_calls polls ∧
      Forall (λ op, done op = false) polls ∧
      (length polls ≤ fuel)%nat ∧
      match (poll getVideosOperation fuel operation log).1 with
      | Settled (Ok operation') => done operation' = true
      | Settled (Throw _) => True
      | Pending => length polls = fuel
      end.
Proof.
  induction fuel as [|fuel IH]; intros operation log; cbn [poll];
    destruct (done operation) eqn:Hdone.
  - exists []. cbn. by rewrite app_nil_r.
  - exists []. cbn. by rewrite app_nil_r.
  - exists []. cbn. rewrite app_nil_r. repeat split; [constructor|lia|done].
  - unfold abind, emit, ai_getVideosOperation. cbn [fst snd].
    destruct (getVideosOperation (log ++ [CallSetTimeout 5000]) operation)
      as [operation'|e].
    + destruct (IH operation'
                  ((log ++ [CallSetTimeout 5000])
                     ++ [CallGetVideosOperation operation]))
        as (polls & Hlog & Hpolls & Hlen & Hout).
      exists (operation :: polls). rewrite Hlog.
      split; [by rewrite <- !app_assoc|].
      split; [by constructor|]. split; [cbn; lia|].
      destruct (poll _ _ _ _).1 as [[?|?]|]; [done|done|cbn; lia].
    + exists [operation]. cbn. split; [by rewrite <- app_assoc|].
      split; [by repeat constructor|]. split; [lia|done].
Qed.

(** What follows the submission of [p]: the polls, then the download or
    the report of the error. *)
Lemma submission_shape (fuel : nat) (p : GenerateVideosParameters)
    (log : list call) :
  let r :=
    try_catch
      (operation <~ ai_generateVideos generateVideos p ;;
       operation <~ poll getVideosOperation fuel operation ;;
       match nonempty (videoUri operation) with
       | None => throw (Error (js "Failed to generate video URI"))
       | Some videoUri =>
           fetch_blob_url fetchObjectURL (videoUri ++ js "&key=" ++ API_KEY)
       end)
      (λ error, _ <~ emit (CallConsoleError error) ;; throw error) log in
  ∃ polls tail,
    r.2 = log ++ CallGenerateVideos p :: poll_calls polls ++ tail ∧
    Forall (λ op, done op = false) polls ∧
    (length polls ≤ fuel)%nat ∧
    match r.1 with
    | Pending => length polls = fuel ∧ tail = []
    | Settled (Ok _) =>
        ∃ uri, uri ≠ [] ∧ tail = [CallFetch (uri ++ js "&key=" ++ API_KEY)]
    | Settled (Throw e) =>
        tail = [CallConsoleError e]
        ∨ ∃ uri, uri ≠ [] ∧
            tail = [CallFetch (uri ++ js "&key=" ++ API_KEY);
                    CallConsoleError e]
    end.
Proof.
  cbv zeta.
  unfold try_catch, abind, ai_generateVideos, emit, throw, fetch_blob_url.
  destruct (generateVideos log p) as [operation|e].
  2:{ exists [], [CallConsoleError e]. cbn.
      split; [by rewrite <- app_assoc|]. split; [constructor|].
      split; [lia|by left]. }
  destruct (poll_shape fuel operation (log ++ [CallGenerateVideos p]))
    as (polls & Hlog & Hpolls & Hlen & Hout).
  destruct (poll getVideosOperation fuel operation
              (log ++ [CallGenerateVideos p])) as [[[operation'|e]|] log2];
    cbn [fst snd] in *; subst log2.
  - destruct (nonempty (videoUri operation')) as [uri|] eqn:Huri.
    + assert (uri ≠ []) as Hne.
      { destruct (videoUri operation') as [[|? ?]|]; cbn in Huri;
          try discriminate. by injection Huri as <-. }
      destruct (fetchObjectURL _ _) as [url|e].
      * exists polls, [CallFetch (uri ++ js "&key=" ++ API_KEY)]. cbn.
        split; [by rewrite <- !app_assoc|]. split; [done|]. split; [done|].
        by exists uri.
      * exists polls, [CallFetch (uri ++ js "&key=" ++ API_KEY);
                       CallConsoleError e]. cbn.
        split; [by rewrite <- !app_assoc|]. split; [done|]. split; [done|].
        right. by exists uri.
    + exists polls, [CallConsoleError (Error (js "Failed to generate video URI"))].
      cbn. split; [by rewrite <- !app_assoc|]. split; [done|].
      split; [done|]. by left.
  - exists polls, [CallConsoleError e]. cbn.
    split; [by rewrite <- !app_assoc|]. split; [done|]. split; [done|].
    by left.
  - exists polls, []. cbn. rewrite app_nil_r.
    split; [by rewrite <- !app_assoc|]. by repeat split.
Qed.

(** The polls of one run and the answers they rest on. *)
Lemma poll_trace (fuel : nat) :
  ∀ operation log,
    ∃ polls last,
      (poll getVideosOperation fuel operation log).2
      = log ++ poll_calls polls ∧
      chained getVideosOperation log (Ok operation) polls last ∧
      Forall (λ op, done op = false) polls ∧
      (length polls ≤ fuel)%nat ∧
      match last with
      | Throw e =>
          (poll getVideosOperation fuel operation log).1 = Settled (Throw e)
      | Ok final =>
          if done final
          then (poll getVideosOperation fuel operation log).1
               = Settled (Ok final)
          else (poll getVideosOperation fuel operation log).1 = Pending
               ∧ length polls = fuel
      end.
Proof.
  induction fuel as [|fuel IH]; intros operation log; cbn [poll];
    destruct (done operation) eqn:Hdone.
  - exists [], (Ok operation). cbn. by rewrite app_nil_r, Hdone.
  - exists [], (Ok operation). cbn. by rewrite app_nil_r, Hdone.
  - exists [], (Ok operation). cbn. rewrite app_nil_r, Hdone.
    repeat split; [constructor|lia].
  - unfold abind, emit, ai_getVideosOperation. cbn [fst snd].
    destruct (getVideosOperation (log ++ [CallSetTimeout 5000]) operation)
      as [operation'|e] eqn:Hanswer.
    + destruct (IH operation'
                  ((log ++ [CallSetTimeout 5000])
                     ++ [CallGetVideosOperation operation]))
        as (polls & last & Hlog & Hchain & Hpolls & Hlen & Hout).
      exists (operation :: polls), last. rewrite Hlog.
      split; [by rewrite <- !app_assoc|]. split.
      { cbn [chained]. split; [done|]. rewrite Hanswer.
        by rewrite <- app_assoc in Hchain. }
      split; [by constructor|]. split; [cbn; lia|].
      destruct last as [final|e]; [|done].
      destruct (done final); [done|]. cbn [length]. by destruct Hout as [-> ->].
    + exists [operation], (Throw e). cbn [chained].
      split; [cbn; by rewrite <- app_assoc|]. split; [by rewrite Hanswer|].
      split; [by repeat constructor|]. split; [cbn; lia|done].
Qed.

(** What follows the submission of [p], by what the provider answers. *)
Lemma submission_trace (fuel : nat) (p : GenerateVideosParameters)
    (log : list call) :
  let r :=
    try_catch
      (operation <~ ai_generateVideos generateVideos p ;;
       operation <~ poll getVideosOperation fuel operation ;;
       match nonempty (videoUri operation) with
       | None => throw (Error (js "Failed to generate video URI"))
       | Some videoUri =>
           fetch_blob_url fetchObjectURL (videoUri ++ js "&key=" ++ API_KEY)
       end)
      (λ error, _ <~ emit (CallConsoleError error) ;; throw error) log in
  ∃ polls last tail,
    r.2 = log ++ CallGenerateVideos p :: poll_calls polls ++ tail ∧
    chained getVideosOperation (log ++ [CallGenerateVideos p])
      (generateVideos log p) polls last ∧
    Forall (λ op, done op = false) polls ∧
    (length polls ≤ fuel)%nat ∧
    (∀ e, last = Throw e →
          r.1 = Settled (Throw e) ∧ tail = [CallConsoleError e]) ∧
    (∀ final, last = Ok final → done final = false →
          r.1 = Pending ∧ tail = [] ∧ length polls = fuel) ∧
    (∀ final, last = Ok final → done final = true →
       (nonempty (videoUri final) = None →
        r.1 = Settled (Throw (Error (js "Failed to generate video URI"))) ∧
        tail = [CallConsoleError (Error (js "Failed to generate video URI"))])
       ∧
       (∀ uri, nonempty (videoUri final) = Some uri →
          let downloadUrl := uri ++ js "&key=" ++ API_KEY in
          let answer :=
            fetchObjectURL
              (log ++ CallGenerateVideos p :: poll_calls polls) downloadUrl in
          (∀ objectUrl, answer = Ok objectUrl →
             r.1 = Settled (Ok objectUrl) ∧ tail = [CallFetch downloadUrl]) ∧
          (∀ e, answer = Throw e →
             r.1 = Settled (Throw e) ∧
             tail = [CallFetch downloadUrl; CallConsoleError e]))).
Proof.
  cbv zeta.
  unfold try_catch, abind, ai_generateVideos, emit, throw, fetch_blob_url.
  destruct (generateVideos log p) as [operation|e] eqn:Hsubmit.
  2:{ exists [], (Throw e), [CallConsoleError e]. cbn.
      split; [by rewrite <- app_assoc|]. split; [done|].
      split; [constructor|]. split; [lia|].
      split; [by intros ? [= <-]|]. split; by intros ? [=]. }
  destruct (poll_trace fuel operation (log ++ [CallGenerateVideos p]))
    as (polls & last & Hlog & Hchain & Hpolls & Hlen & Hout).
  assert (∀ l : list call,
            (log ++ [CallGenerateVideos p]) ++ l
            = log ++ CallGenerateVideos p :: l) as Hassoc
    by (intros l; by rewrite <- app_assoc).
  destruct (poll getVideosOperation fuel operation
              (log ++ [CallGenerateVideos p])) as [out log2] eqn:Hpoll;
    cbn [fst snd] in *; subst log2.
  destruct last as [final|e].
  - destruct (done final) eqn:Hdone.
    + subst out.
      destruct (nonempty (videoUri final)) as [uri|] eqn:Huri.
      * rewrite Hassoc.
        destruct (fetchObjectURL
                    (log ++ CallGenerateVideos p :: poll_calls polls)
                    (uri ++ js "&key=" ++ API_KEY)) as [url|e] eqn:Hfetch.
        -- exists polls, (Ok final),
             [CallFetch (uri ++ js "&key=" ++ API_KEY)]. cbn [fst snd].
           split; [by rewrite <- Hassoc, <- !app_assoc|].
           split; [done|]. split; [done|]. split; [done|].
           split; [by intros ? [=]|]. split; [intros ? [= <-]; congruence|].
           intros ? [= <-] _. rewrite Huri. split; [by intros [=]|].
           intros ? [= <-]. cbv zeta. rewrite Hfetch.
           split; [by intros ? [= <-]|by intros ? [=]].
        -- exists polls, (Ok final),
             [CallFetch (uri ++ js "&key=" ++ API_KEY); CallConsoleError e].
           cbn [fst snd].
           split; [by rewrite <- Hassoc, <- !app_assoc|].
           split; [done|]. split; [done|]. split; [done|].
           split; [by intros ? [=]|]. split; [intros ? [= <-]; congruence|].
           intros ? [= <-] _. rewrite Huri. split; [by intros [=]|].
           intros ? [= <-]. cbv zeta. rewrite Hfetch.
           split; [by intros ? [=]|by intros ? [= <-]].
      * exists polls, (Ok final),
          [CallConsoleError (Error (js "Failed to generate video URI"))].
        cbn [fst snd].
        split; [by rewrite <- !app_assoc|].
        split; [done|]. split; [done|]. split; [done|].
        split; [by intros ? [=]|]. split; [intros ? [= <-]; congruence|].
        intros ? [= <-] _. rewrite Huri. split; [done|by intros ? [=]].
    + destruct Hout as [-> Hfuel]. exists polls, (Ok final), []. cbn [fst snd].
      rewrite app_nil_r.
      split; [by rewrite <- !app_assoc|].
      split; [done|]. split; [done|]. split; [done|].
      split; [by intros ? [=]|]. split; [by intros ? [= <-]|].
      intros ? [= <-]. congruence.
  - subst out. exists polls, (Throw e), [CallConsoleError e]. cbn [fst snd].
    split; [by rewrite <- !app_assoc|].
    split; [done|]. split; [done|]. split; [done|].
    split; [by intros ? [= <-]|]. split; by intros ? [=].
Qed.

End ServiceFurther.

(** X13.  The calls of [generateCinematicMemory], in order, and what they
    rest on.  One submission, of the capped prompt to the video model;
    then, for each poll, a wait of 5000 ms followed by the poll of the
    operation the provider answered last, which is not done.  The loop ends
    on the first answer that is an error or a done operation.
    - An error of the submission or of a poll is reported once to the
      console, as the last call, and rethrown unchanged.
    - A done operation without a video URI, or with an empty one, makes no
      download: the error "Failed to generate video URI" is reported and
      thrown.
    - A done operation with a video URI makes one download, from that URI
      followed by [&key=] and the API key; the result is the object URL of
      that download, and an error of the download is reported and rethrown
      unchanged.
    - Only a run whose last answer is an operation that is not done, after
      all the polls allowed, is still pending. *)
Theorem cinematic_call_sequence
    (generateVideos : list call → GenerateVideosParameters → result Operation)
    (getVideosOperation : list call → Operation → result Operation)
    (fetchObjectURL : list call → jsstring → result jsstring)
    (API_KEY : jsstring) (fuel : nat)
    (prompt : jsstring) (base64Image : option jsstring) (log : list call) :
  let r :=
    generateCinematicMemory generateVideos getVideosOperation fetchObjectURL
      API_KEY fuel prompt base64Image log in
  ∃ p polls last tail,
    gv_model p = js "veo-3.1-fast-generate-preview" ∧
    gv_prompt p = cleanPrompt prompt ∧
    r.2 = log ++ CallGenerateVideos p :: poll_calls polls ++ tail ∧
    chained getVideosOperation (log ++ [CallGenerateVideos p])
      (generateVideos log p) polls last ∧
    Forall (λ op, done op = false) polls ∧
    (length polls ≤ fuel)%nat ∧
    (∀ e, last = Throw e →
          r.1 = Settled (Throw e) ∧ tail = [CallConsoleError e]) ∧
    (∀ final, last = Ok final → done final = false →
          r.1 = Pending ∧ tail = [] ∧ length polls = fuel) ∧
    (∀ final, last = Ok final → done final = true →
       (nonempty (videoUri final) = None →
        r.1 = Settled (Throw (Error (js "Failed to generate video URI"))) ∧
        tail = [CallConsoleError (Error (js "Failed to generate video URI"))])
       ∧
       (∀ uri, nonempty (videoUri final) = Some uri →
          let downloadUrl := uri ++ js "&key=" ++ API_KEY in
          let answer :=
            fetchObjectURL
              (log ++ CallGenerateVideos p :: poll_calls polls) downloadUrl in
          (∀ objectUrl, answer = Ok objectUrl →
             r.1 = Settled (Ok objectUrl) ∧ tail = [CallFetch downloadUrl]) ∧
          (∀ e, answer = Throw e →
             r.1 = Settled (Throw e) ∧
             tail = [CallFetch downloadUrl; CallConsoleError e]))).
Proof.
  unfold generateCinematicMemory. cbv zeta.
  destruct (nonempty base64Image) as [img|];
    match goal with
    | |- context [ai_generateVideos _ ?q] =>
        destruct (submission_trace generateVideos getVideosOperation
                    fetchObjectURL API_KEY fuel q log)
          as (polls & last & tail & Htrace);
        exists q, polls, last, tail;
        split; [reflexivity|]; split; [reflexivity|]; exact Htrace
    end.
Qed.

Lemma one_content_call {A}
    (generateContent :
       list call → GenerateContentParameters → result GenerateContentResponse)
    (p : GenerateContentParameters)
    (k : GenerateContentResponse → async A) (log : list call) :
  (∀ r l, (k r l).2 = l) →
  (abind (ai_generateContent generateContent p) k log).2
  = log ++ [CallGenerateContent p].
Proof.
  intros Hk. unfold abind, ai_generateContent.
  destruct (generateContent log p) as [r|e]; [apply Hk|done].
Qed.

Lemma substring0_length (n : Z) (s : jsstring) :
  0 ≤ n → Z.of_nat (length (substring0 n s)) ≤ n.
Proof. intros Hn. unfold substring0. rewrite length_take. lia. Qed.

(** X15.  Each of the three text-analysis functions makes exactly one call
    to the provider.  The journal text is cut before it is sent: the request
    of [analyzeJournalForVideo] holds the first 5000 code units of the
    entries between its fixed instructions, that of [analyzeLifeProfile] the
    first 10000; two journals that agree up to the cut get the same result. *)
Theorem analysis_request_is_capped
    (generateContent :
       list call → GenerateContentParameters → result GenerateContentResponse)
    (JSON_parse : jsstring → result jsval)
    (videoPromptHead videoPromptTail profilePromptHead profilePromptTail
       entriesText content : jsstring)
    (imageBase64 : option jsstring) (log : list call) :
  (∃ p,
     (analyzeJournalForVideo generateContent JSON_parse videoPromptHead
        videoPromptTail entriesText log).2 = log ++ [CallGenerateContent p] ∧
     gc_contents p
     = ContentsText (videoPromptHead ++ substring0 5000 entriesText
                       ++ videoPromptTail) ∧
     Z.of_nat (length (substring0 5000 entriesText)) ≤ 5000) ∧
  (∃ p,
     (analyzeLifeProfile generateContent JSON_parse profilePromptHead
        profilePromptTail entriesText log).2 = log ++ [CallGenerateContent p] ∧
     gc_contents p
     = ContentsText (profilePromptHead ++ substring0 10000 entriesText
                       ++ profilePromptTail) ∧
     Z.of_nat (length (substring0 10000 entriesText)) ≤ 10000) ∧
  (∃ p,
     (suggestTags generateContent JSON_parse content imageBase64 log).2
     = log ++ [CallGenerateContent p]) ∧
  (∀ other,
     substring0 5000 other = substring0 5000 entriesText →
     analyzeJournalForVideo generateContent JSON_parse videoPromptHead
       videoPromptTail other log
     = analyzeJournalForVideo generateContent JSON_parse videoPromptHead
         videoPromptTail entriesText log) ∧
  (∀ other,
     substring0 10000 other = substring0 10000 entriesText →
     analyzeLifeProfile generateContent JSON_parse profilePromptHead
       profilePromptTail other log
     = analyzeLifeProfile generateContent JSON_parse profilePromptHead
         profilePromptTail entriesText log).
Proof.
  assert (∀ (t : option jsstring) l,
            (match nonempty t with
             | None => throw (Error (js "No response from Gemini"))
             | Some text => lift (JSON_parse text)
             end l).2 = l) as Hk1
    by (intros t l; by destruct (nonempty t)).
  assert (∀ (t : option jsstring) l,
            (match nonempty t with
             | Some text => lift (JSON_parse text)
             | None => ret (JArr [])
             end l).2 = l) as Hk2
    by (intros t l; by destruct (nonempty t)).
  split; [|split; [|split; [|split]]].
  - eexists. split.
    + unfold analyzeJournalForVideo.
      apply one_content_call. intros r l. apply Hk1.
    + split; [reflexivity|by apply substring0_length].
  - eexists. split.
    + unfold analyzeLifeProfile.
      apply one_content_call. intros r l. apply Hk1.
    + split; [reflexivity|by apply substring0_length].
  - eexists. unfold suggestTags. cbv zeta.
    apply one_content_call. intros r l. apply Hk2.
  - intros other Heq. unfold analyzeJournalForVideo. by rewrite Heq.
  - intros other Heq. unfold analyzeLifeProfile. by rewrite Heq.
Qed.

(** *** The image sent with a request *)

Lemma split_comma_no_comma (s : jsstring) : 44 ∉ s → split_comma s = [s].
Proof.
  induction s as [|c s IH]; intros Hs; cbn [split_comma]; [done|].
  apply not_elem_of_cons in Hs as [Hc Hs].
  rewrite (proj2 (Z.eqb_neq c 44)) by done. by rewrite IH.
Qed.

Lemma split_comma_first (header rest : jsstring) :
  44 ∉ header →
  split_comma (header ++ 44 :: rest) = header :: split_comma rest.
Proof.
  induction header as [|c h IH]; intros Hh; cbn [split_comma app].
  - done.
  - apply not_elem_of_cons in Hh as [Hc Hh].
    rewrite (proj2 (Z.eqb_neq c 44)) by done. by rewrite IH.
Qed.

(** X16.  What is sent as image.  No image, or an empty one, sends none.
    An image without a comma is sent whole.  For a data URL, a header
    without comma, a comma and a payload without comma, [suggestTags] sends
    the payload, and [generateCinematicMemory] sends the payload too unless
    it is empty, in which case it sends the whole URL.  The MIME type
    declared is always image/jpeg. *)
Theorem image_sent_with_request
    (generateContent :
       list call → GenerateContentParameters → result GenerateContentResponse)
    (JSON_parse : jsstring → result jsval)
    (generateVideos : list call → GenerateVideosParameters → result Operation)
    (getVideosOperation : list call → Operation → result Operation)
    (fetchObjectURL : list call → jsstring → result jsstring)
    (API_KEY : jsstring) (fuel : nat)
    (content prompt : jsstring) (image : option jsstring) (log : list call) :
  ∃ p q rest text,
    (suggestTags generateContent JSON_parse content image log).2
    = log ++ [CallGenerateContent p] ∧
    (generateCinematicMemory generateVideos getVideosOperation fetchObjectURL
       API_KEY fuel prompt image log).2
    = log ++ CallGenerateVideos q :: rest ∧
    (image = None ∨ image = Some [] →
     gc_contents p = ContentsParts [TextPart text] ∧ gv_image q = None) ∧
    (∀ s, image = Some s → s ≠ [] → 44 ∉ s →
          gc_contents p
          = ContentsParts [InlineData (js "image/jpeg") s; TextPart text] ∧
          gv_image q
          = Some {| imageBytes := s; mimeType := js "image/jpeg" |}) ∧
    (∀ header payload,
       image = Some (header ++ 44 :: payload) →
       44 ∉ header → 44 ∉ payload →
       gc_contents p
       = ContentsParts [InlineData (js "image/jpeg") payload; TextPart text] ∧
       gv_image q
       = Some {| imageBytes :=
                   match payload with
                   | [] => header ++ 44 :: payload
                   | _ => payload
                   end;
                 mimeType := js "image/jpeg" |}).
Proof.
  assert (∀ (t : option jsstring) l,
            (match nonempty t with
             | Some text => lift (JSON_parse text)
             | None => ret (JArr [])
             end l).2 = l) as Hk
    by (intros t l; by destruct (nonempty t)).
  unfold suggestTags, generateCinematicMemory. cbv zeta.
  destruct image as [[|c s]|]; cbn [nonempty];
    match goal with
    | |- context [ai_generateVideos _ ?P] =>
        destruct (submission_shape generateVideos getVideosOperation
                    fetchObjectURL API_KEY fuel P log)
          as (polls & tail & Hlog & _)
    end; cbv zeta in Hlog;
    do 4 eexists;
    (split; [apply one_content_call; intros; apply Hk|]);
    (split; [exact Hlog|]).
  - (* the empty string *)
    split; [by intros _|]. split; [by intros s [= <-]|].
    intros header payload [= Heq]. by destruct header.
  - (* a non-empty image *)
    split; [by intros [?|?]|]. split.
    + intros s' [= <-] _ Hno. cbn [app gc_contents gv_image].
      rewrite bool_decide_eq_false_2 by done.
      by rewrite split_comma_no_comma.
    + intros header payload [= Heq] Hh Hp.
      cbn [app gc_contents gv_image]. rewrite Heq.
      rewrite bool_decide_eq_true_2
        by (apply elem_of_app; right; apply list_elem_of_here).
      rewrite split_comma_first, split_comma_no_comma by done.
      cbn [lookup list_lookup default]. by destruct payload.
  - (* no image *)
    split; [by intros _|]. split; [by intros s [= <-]|].
    by intros header payload [=].
Qed.

(** ** The voiceover *)

Import GeminiAudio.

Lemma pcmToWavBlob_decoded (base64Data : jsstring) (sampleRate : option Q)
    (pcmData : list Z) :
  base64ToUint8Array base64Data = Ok pcmData →
  ∃ h,
    header_of h (inject_Z (Z.of_nat (length pcmData)))
      (default 24000%Q sampleRate) 1%Q 16%Q ∧
    pcmToWavBlob base64Data sampleRate
    = Ok {| blobParts := [h; pcmData]; blobType := js "audio/wav" |}.
Proof.
  intros Hdec. unfold pcmToWavBlob. rewrite Hdec. cbn [bind].
  destruct (createWavHeader_total (inject_Z (Z.of_nat (length pcmData)))
              (default 24000%Q sampleRate) 1%Q 16%Q) as (h & -> & Hh).
  by exists h.
Qed.

Lemma rfc4648_encode_nil (b : list Z) : rfc4648_encode b = [] → b = [].
Proof. by destruct b as [|? [|? [|? ?]]]. Qed.

(** X17.  [generateJournalAudio] asks for the script in the given voice
    (Fenrir when none is given) and
    - rejects with the provider's error when the call fails;
    - throws "No audio data returned" when the response carries no audio
      data or empty data;
    - throws the decoder's [InvalidCharacterError] when the data is not
      base64;
    - otherwise returns the object URL of a blob of type audio/wav: a
      44-byte header declaring one channel, 24000 Hz, 48000 bytes per
      second, block align 2 and 16 bits, followed by the decoded bytes.
    Hence a provider that sends the standard encoding of the bytes [b]
    gets them played back unchanged, unless [b] is empty, which counts as
    no audio. *)
Theorem journal_audio_outcomes
    (generateSpeech : SpeechParameters → result SpeechResponse)
    (createObjectURL : Blob → jsstring)
    (script : jsstring) (voiceName : option jsstring)
    (outcome : result SpeechResponse) :
  generateSpeech {| sp_model := js "gemini-2.5-flash-preview-tts";
                    sp_text := script;
                    sp_voiceName := default (js "Fenrir") voiceName |}
  = outcome →
  (∀ e, outcome = Throw e →
        generateJournalAudio generateSpeech createObjectURL script voiceName
        = Throw e) ∧
  (∀ response,
     outcome = Ok response →
     inlineData response = None ∨ inlineData response = Some [] →
     generateJournalAudio generateSpeech createObjectURL script voiceName
     = Throw (Error (js "No audio data returned"))) ∧
  (∀ response base64Audio,
     outcome = Ok response →
     inlineData response = Some base64Audio → base64Audio ≠ [] →
     (∀ e, base64ToUint8Array base64Audio = Throw e →
           generateJournalAudio generateSpeech createObjectURL script
             voiceName = Throw InvalidCharacterError) ∧
     (∀ pcm, base64ToUint8Array base64Audio = Ok pcm →
        ∃ blob,
          generateJournalAudio generateSpeech createObjectURL script voiceName
          = Ok (createObjectURL blob) ∧
          blobType blob = js "audio/wav" ∧
          length (blob_bytes blob) = (44 + length pcm)%nat ∧
          drop 44 (blob_bytes blob) = pcm ∧
          field (blob_bytes blob) 22 2 = 1 ∧
          field (blob_bytes blob) 24 4 = 24000 ∧
          field (blob_bytes blob) 28 4 = 48000 ∧
          field (blob_bytes blob) 32 2 = 2 ∧
          field (blob_bytes blob) 34 2 = 16)) ∧
  (∀ response b,
     outcome = Ok response → Forall is_byte b →
     inlineData response = Some (rfc4648_encode b) →
     (b = [] →
      generateJournalAudio generateSpeech createObjectURL script voiceName
      = Throw (Error (js "No audio data returned"))) ∧
     (b ≠ [] →
      ∃ blob,
        generateJournalAudio generateSpeech createObjectURL script voiceName
        = Ok (createObjectURL blob) ∧
        drop 44 (blob_bytes blob) = b)).
Proof.
  intros Hcall.
  assert (∀ response base64Audio pcm,
            outcome = Ok response →
            inlineData response = Some base64Audio → base64Audio ≠ [] →
            base64ToUint8Array base64Audio = Ok pcm →
            ∃ blob,
              generateJournalAudio generateSpeech createObjectURL script
                voiceName = Ok (createObjectURL blob) ∧
              blobType blob = js "audio/wav" ∧
              length (blob_bytes blob) = (44 + length pcm)%nat ∧
              drop 44 (blob_bytes blob) = pcm ∧
              field (blob_bytes blob) 22 2 = 1 ∧
              field (blob_bytes blob) 24 4 = 24000 ∧
              field (blob_bytes blob) 28 4 = 48000 ∧
              field (blob_bytes blob) 32 2 = 2 ∧
              field (blob_bytes blob) 34 2 = 16) as Hplay.
  { intros response b64 pcm -> Hdata Hne Hdec.
    unfold generateJournalAudio. cbv zeta. rewrite Hcall. cbn [bind].
    rewrite Hdata.
    assert (nonempty (Some b64) = Some b64) as -> by (by destruct b64).
    destruct (pcmToWavBlob_decoded b64 (Some 24000%Q) pcm Hdec)
      as (h & [] & ->).
    cbn [bind]. eexists. split; [reflexivity|].
    unfold blob_bytes. cbn [blobParts blobType concat]. rewrite app_nil_r.
    split; [done|]. split; [by rewrite length_app, hdr_length0|].
    split; [by rewrite <- hdr_length0, drop_app_length|].
    rewrite !field_app by (rewrite hdr_length0; lia).
    by repeat split. }
  split; [|split; [|split]].
  - intros e ->. unfold generateJournalAudio. cbv zeta. by rewrite Hcall.
  - intros response -> Hnone. unfold generateJournalAudio. cbv zeta.
    rewrite Hcall. cbn [bind]. by destruct Hnone as [-> | ->].
  - intros response b64 Hout Hdata Hne.
    split; [|intros pcm Hdec; by apply (Hplay response b64 pcm)].
    intros e Hdec. rewrite Hout in Hcall.
    unfold generateJournalAudio. cbv zeta. rewrite Hcall. cbn [bind].
    rewrite Hdata.
    assert (nonempty (Some b64) = Some b64) as -> by (by destruct b64).
    unfold pcmToWavBlob. rewrite Hdec. cbn [bind].
    rewrite base64ToUint8Array_eq_atob in Hdec. unfold atob in Hdec.
    repeat case_match; congruence.
  - intros response b Hout Hb Hdata. split.
    + intros ->. rewrite Hout in Hcall. unfold generateJournalAudio. cbv zeta.
      rewrite Hcall. cbn [bind]. by rewrite Hdata.
    + intros Hne.
      destruct (Hplay response (rfc4648_encode b) b Hout Hdata)
        as (blob & Hblob & _ & _ & Hdrop & _).
      * intros Hnil. by apply Hne, rfc4648_encode_nil.
      * by apply base64ToUint8Array_encode.
      * by exists blob.
Qed.

Lemma journal_audio_outcomes_witness :
  ∃ blob,
    generateJournalAudio (λ _, Ok {| inlineData := Some (js "AQIDBA==") |})
      (λ blob, js "blob:1") (js "Once upon a time") None
    = Ok (js "blob:1") ∧
    drop 44 (blob_bytes blob) = [1; 2; 3; 4].
Proof.
  destruct (journal_audio_outcomes
              (λ _, Ok {| inlineData := Some (js "AQIDBA==") |})
              (λ blob, js "blob:1") (js "Once upon a time") None _ eq_refl)
    as (_ & _ & Hplay & _).
  destruct (Hplay _ (js "AQIDBA==") eq_refl eq_refl) as [_ Hok];
    [by vm_compute|].
  destruct (Hok [1; 2; 3; 4]) as (blob & Hblob & _ & _ & Hdrop & _);
    [by vm_compute|].
  exists blob. split; [exact Hblob|exact Hdrop].
Defined.

(** ** components/Editor.tsx *)

Import Editor.

Lemma Set_fold_fresh (l : list jsstring) :
  ∀ seen, NoDup (seen ++ l) →
    foldl (λ seen x, if bool_decide (x ∈ seen) then seen else seen ++ [x])
      seen l = seen ++ l.
Proof.
  induction l as [|x l IH]; intros seen Hnodup; cbn [foldl].
  - by rewrite app_nil_r.
  - assert (x ∉ seen) as Hx.
    { apply NoDup_app in Hnodup as (_ & Hdisj & _).
      intros Hin. apply (Hdisj x Hin), list_elem_of_here. }
    rewrite bool_decide_eq_false_2 by done.
    rewrite IH by (by rewrite <- app_assoc). by rewrite <- app_assoc.
Qed.

Lemma Set_fold_spec (l : list jsstring) :
  ∀ seen, NoDup seen →
    ∃ new,
      foldl (λ seen x, if bool_decide (x ∈ seen) then seen else seen ++ [x])
        seen l = seen ++ new ∧
      NoDup (seen ++ new) ∧
      (∀ x, x ∈ new ↔ x ∈ l ∧ x ∉ seen).
Proof.
  induction l as [|x l IH]; intros seen Hnodup; cbn [foldl].
  - exists []. rewrite app_nil_r. split; [done|]. split; [done|].
    intros x. rewrite !elem_of_nil. tauto.
  - destruct (bool_decide_reflect (x ∈ seen)) as [Hx|Hx].
    + destruct (IH seen Hnodup) as (new & -> & Hnd & Hnew).
      exists new. split; [done|]. split; [done|].
      intros y. rewrite Hnew, elem_of_cons. split; [tauto|].
      intros [[->|?] ?]; tauto.
    + destruct (IH (seen ++ [x])) as (new & -> & Hnd & Hnew).
      { apply NoDup_app. split; [done|]. split; [|apply NoDup_singleton].
        by intros y Hy ->%list_elem_of_singleton. }
      exists (x :: new). rewrite <- app_assoc in *.
      split; [done|]. split; [done|].
      intros y. rewrite !elem_of_cons, Hnew, elem_of_app,
        list_elem_of_singleton.
      destruct (decide (y = x)) as [->|Hne]; tauto.
Qed.

(** X18.  Merging the suggested tags into the tags of the editor never
    yields a duplicate and yields exactly the tags of either list; tags that
    were already there (without duplicate) keep their places and the new
    ones follow; and merging the same suggestions again changes nothing. *)
Theorem merge_suggested_tags (tags suggested : list jsstring) :
  NoDup (mergeSuggested tags suggested) ∧
  (∀ x, x ∈ mergeSuggested tags suggested ↔ x ∈ tags ∨ x ∈ suggested) ∧
  (NoDup tags →
   ∃ new,
     mergeSuggested tags suggested = tags ++ new ∧
     (∀ x, x ∈ new ↔ x ∈ suggested ∧ x ∉ tags)) ∧
  mergeSuggested (mergeSuggested tags suggested) suggested
  = mergeSuggested tags suggested.
Proof.
  unfold mergeSuggested, Set_values.
  destruct (Set_fold_spec (tags ++ suggested) [] (NoDup_nil_2))
    as (merged & Hmerged & Hnd & Hel).
  cbn [app] in Hmerged, Hnd. rewrite Hmerged.
  assert (∀ x, x ∈ merged ↔ x ∈ tags ∨ x ∈ suggested) as Hel'.
  { intros x. rewrite Hel, elem_of_app, elem_of_nil. tauto. }
  split; [done|]. split; [done|]. split.
  - intros Htags. rewrite foldl_app in Hmerged.
    rewrite (Set_fold_fresh tags []) in Hmerged by done. cbn [app] in Hmerged.
    destruct (Set_fold_spec suggested tags Htags) as (new & Hnew & _ & Hin).
    exists new. split; [congruence|done].
  - rewrite foldl_app, (Set_fold_fresh merged []) by done. cbn [app].
    destruct (Set_fold_spec suggested merged Hnd) as (new & -> & _ & Hin).
    destruct new as [|y new]; [by rewrite app_nil_r|].
    destruct (proj1 (Hin y)) as [Hy1 Hy2]; [apply list_elem_of_here|].
    destruct Hy2. apply Hel'. by right.
Qed.

Lemma filter_index_from_past (images : list jsstring) :
  ∀ i idx, (idx < i)%nat → filter_index_from i idx images = images.
Proof.
  induction images as [|img rest IH]; intros i idx Hlt;
    cbn [filter_index_from]; [done|].
  rewrite decide_True by lia. by rewrite IH by lia.
Qed.

Lemma filter_index_from_delete (images : list jsstring) :
  ∀ i idx, (i ≤ idx)%nat →
    filter_index_from i idx images = delete (idx - i)%nat images.
Proof.
  induction images as [|img rest IH]; intros i idx Hle;
    cbn [filter_index_from]; [done|].
  case_decide as Hne.
  - rewrite IH by lia.
    by replace (idx - i)%nat with (S (idx - S i)) by lia.
  - subst idx. rewrite Nat.sub_diag, filter_index_from_past by lia. done.
Qed.

(** X19.  Removing a photo by its index deletes that photo and no other:
    the photos before it stay where they are, those after it move up by one
    and the list is one shorter; an index past the end removes nothing.
    Removing a tag removes every occurrence of it, keeps all other tags in
    their order, and keeps a list without duplicates free of them, one
    shorter when the tag was there. *)
Theorem editor_removals (idx : nat) (images : list jsstring)
    (tag : jsstring) (tags : list jsstring) :
  removeImage idx images = delete idx images ∧
  (∀ i, (i < idx)%nat → removeImage idx images !! i = images !! i) ∧
  (∀ i, (idx ≤ i)%nat → removeImage idx images !! i = images !! S i) ∧
  ((idx < length images)%nat →
   length (removeImage idx images) = (length images - 1)%nat) ∧
  ((length images ≤ idx)%nat → removeImage idx images = images) ∧
  (tag ∉ removeTag tag tags) ∧
  (∀ t, t ≠ tag → (t ∈ removeTag tag tags ↔ t ∈ tags)) ∧
  removeTag tag tags `sublist_of` tags ∧
  (NoDup tags →
   NoDup (removeTag tag tags) ∧
   (tag ∈ tags → S (length (removeTag tag tags)) = length tags) ∧
   (tag ∉ tags → removeTag tag tags = tags)).
Proof.
  assert (removeImage idx images = delete idx images) as Hdel.
  { unfold removeImage. rewrite filter_index_from_delete by lia.
    by rewrite Nat.sub_0_r. }
  rewrite Hdel. split; [done|].
  split; [intros i Hi; by apply list_lookup_delete_lt|].
  split; [intros i Hi; by apply list_lookup_delete_ge|].
  split; [intros Hi; by apply length_delete, lookup_lt_is_Some|].
  split.
  { intros Hi. clear Hdel. revert idx Hi.
    induction images as [|img rest IH]; intros idx Hi; [by destruct idx|].
    destruct idx as [|idx]; cbn in *; [lia|]. f_equal. apply IH. lia. }
  unfold removeTag.
  split; [rewrite list_elem_of_filter; by intros [? _]|].
  split; [intros t Hne; rewrite list_elem_of_filter; tauto|].
  split; [apply sublist_filter|].
  intros Hnodup. split; [by apply NoDup_filter|]. split.
  - intros Hin. destruct (list_elem_of_split _ _ Hin) as (l1 & l2 & ->).
    apply NoDup_app in Hnodup as (_ & Hdisj & Hl2).
    apply NoDup_cons in Hl2 as [Hl2 _].
    rewrite filter_app, filter_cons_False by (by intros H; apply H).
    rewrite !filter_ne_absent; [|done|].
    + rewrite !length_app. cbn [length]. lia.
    + intros H1. apply (Hdisj _ H1), list_elem_of_here.
  - apply filter_ne_absent.
Qed.

Lemma editor_removals_witness :
  removeImage 1 [js "a"; js "b"; js "c"] = [js "a"; js "c"] ∧
  removeTag (js "b") [js "a"; js "b"; js "c"] = [js "a"; js "c"] ∧
  NoDup (removeTag (js "b") [js "a"; js "b"; js "c"]).
Proof.
  destruct (editor_removals 1 [js "a"; js "b"; js "c"] (js "b")
              [js "a"; js "b"; js "c"])
    as (Himg & _ & _ & _ & _ & _ & _ & _ & Hnd).
  split; [exact Himg|]. split; [by vm_compute|].
  apply Hnd. apply (bool_decide_unpack _). by vm_compute.
Defined.
